(** * Johnny web application: the analytics of [johnny/webapp/app.py]

  A shallow embedding of the computing functions of the web application
  ([GetNotional], [risk], [FilterChains], [stats] with [PctCr],
  [stats_pnlpctinit], [RatioDistribution], [RenderHistoryText],
  [RenderHistorySVG]), the properties that the specification states about
  them, and further properties that the code shows.

  Modelling conventions.
  - A Python exception is a value of [exn]; a function that may raise
    returns a [result].
  - A [Decimal] is modelled by its exact numeric value, a rational of [Q].
    Python compares [Decimal]s by value, which is [Qeq] here.  The default
    context (28 significant digits, round-half-even, exponents up to
    999999) is modelled where [GetNotional] and [Quantize] compute: the
    products are rounded to 28 digits and raise Overflow beyond the largest
    exponent, and [quantize] raises InvalidOperation on a result of more
    than 28 digits.  The sums and the quotients of the other functions are
    given by their exact values.
  - A numpy [float64] array is a list of binary64 floats ([PrimFloat]).
  - The tables of petl are lists of records; [aggregate], [sort],
    [biselect] and [addfieldusingcontext] follow petl's documented
    behaviour. *)

From Stdlib Require Import ZArith QArith Qround Qabs List String Ascii Bool Lia.
From Stdlib Require Import Permutation Sorted SetoidList SetoidPermutation.
From Stdlib Require Import Floats Lqa Qpower.
Import ListNotations.

Open Scope Z_scope.
Open Scope Q_scope.

(** ** Exceptions and results *)

Module Py.

Inductive exn : Type :=
| ValueError (msg : string)
| TypeError
| IndexError
| ZeroDivisionError
| InvalidOperation
| Overflow.

Inductive result (A : Type) : Type :=
| Ok (a : A)
| Raise (e : exn).

Arguments Ok {A} a.
Arguments Raise {A} e.

Definition bind {A B : Type} (m : result A) (k : A -> result B) : result B :=
  match m with
  | Ok a => k a
  | Raise e => Raise e
  end.

Definition faults {A : Type} (m : result A) : Prop :=
  exists e, m = Raise e.

End Py.
Import Py.

Notation "x <- m ;; k" := (bind m (fun x => k))
(at level 61, m at next level, right associativity).

(** ** Decimal numbers *)

Module Dec.

(** [ZERO = Decimal(0)] *)
Definition ZERO : Q := 0.

(** Rounding of a rational to an integer, ties to the even neighbour
    ([ROUND_HALF_EVEN], the rounding of the default context). *)
Definition round_half_even (x : Q) : Z :=
  let f := Qfloor x in
  match Qcompare (x - inject_Z f) (1 # 2) with
  | Lt => f
  | Gt => (f + 1)%Z
  | Eq => if Z.even f then f else (f + 1)%Z
  end.

(** [x.quantize(q)] where the exponent of [q] is [- places]: the value of
    [x] rounded to [places] decimal places. *)
Definition quantize (x : Q) (places : nat) : Q :=
  let scale := (10 ^ Z.of_nat places)%Z in
  inject_Z (round_half_even (x * inject_Z scale)) / inject_Z scale.

(** [Q = Decimal('0.01')], given by its number of decimal places. *)
Definition Q_places : nat := 2.

(** The default context: 28 significant digits, the exponents of the
    leading digit up to [emax], the least exponent of a last digit
    [etiny = Emin - prec + 1] with [Emin = - emax] *)
Definition prec : Z := 28.
Definition emax : Z := 999999.
Definition etiny : Z := - emax - (prec - 1).

(** The number of decimal digits of a positive integer *)
Fixpoint digits_aux (fuel : nat) (n : Z) : Z :=
  match fuel with
  | O => 0
  | S fuel' => if (n <? 10)%Z then 1
               else (1 + digits_aux fuel' (n / 10))%Z
  end.

Definition digits (n : Z) : Z := digits_aux (S (Z.to_nat (Z.log2 n))) n.

(** The exponent of the leading digit of a positive number [x]: the [m]
    with [10^m <= x < 10^(m+1)] *)
Definition magnitude (x : Q) : Z :=
  let m := (digits (Qnum x) - digits (Zpos (Qden x)))%Z in
  if Qle_bool (10 ^ m) x then m else (m - 1)%Z.

(** A positive number rounded to [prec] significant digits, half to even;
    a number so small that its last digit would lie below [etiny] is
    rounded at [etiny] (a subnormal result) *)
Definition round_positive (x : Q) : Q :=
  let e := Z.max (magnitude x - (prec - 1)) etiny in
  inject_Z (round_half_even (x * 10 ^ (- e))) * 10 ^ e.

(** The rounding that the context applies to the result of an operation *)
Definition round_context (x : Q) : Q :=
  match Qcompare x 0 with
  | Eq => 0
  | Gt => round_positive (Qred x)
  | Lt => - round_positive (Qred (- x))
  end.

(** The result of an operation whose exact value is [x]: the rounded
    value, or Overflow when its leading digit lies above [emax] *)
Definition fix_context (x : Q) : result Q :=
  let r := round_context x in
  if (emax <? magnitude (Qred (Qabs r)))%Z then Raise Overflow else Ok r.

(** [x * y] on Decimals *)
Definition mul (x y : Q) : result Q := fix_context (x * y).

(** [x * y * z] on Decimals: two multiplications, from the left *)
Definition mul3 (x y z : Q) : result Q :=
  p <- mul x y ;;
  mul p z.

(** [x.quantize(q)] in the default context: the rounded value, or
    InvalidOperation when its coefficient has more than [prec] digits. *)
Definition quantize_context (x : Q) (places : nat) : result Q :=
  let n := round_half_even (x * inject_Z (10 ^ Z.of_nat places)) in
  if (10 ^ prec <=? Z.abs n)%Z then Raise InvalidOperation
  else Ok (quantize x places).

(** [x / y] on Decimals (and on Python numbers): a zero divisor raises. *)
Definition div (x y : Q) : result Q :=
  if Qeq_bool y 0 then Raise ZeroDivisionError else Ok (x / y).

(** [int(x)]: truncation towards zero. *)
Definition to_int (x : Q) : Z := Z.quot (Qnum x) (Zpos (Qden x)).

End Dec.

(** ** Notional of one expanded position row *)

Module Notional.
Import Dec.

(** The fields of an expanded record that [GetNotional] reads.  [putcall]
    is [None] on a row that is not an option. *)
Record Rec : Type := mkRec {
  instype : string;
  putcall : option string;
  quantity : Q;
  multiplier : Q;
  strike : Q;
  price : Q
}.

(** [s in {a, b}] on strings *)
Definition str_in (s : string) (l : list string) : bool :=
  existsb (String.eqb s) l.

(** [s[0]] on an optional string *)
Definition first_char (s : option string) : result ascii :=
  match s with
  | None => Raise TypeError
  | Some EmptyString => Raise IndexError
  | Some (String c _) => Ok c
  end.

Definition GetNotional (rec : Rec) : result Q :=
  notional <-
    (if str_in (instype rec) ["EquityOption"; "FutureOption"]%string then
       c <- first_char (putcall rec) ;;
       if Ascii.eqb c "P"%char then
         mul3 (quantity rec) (multiplier rec) (strike rec)
       else
         Ok ZERO
     else if str_in (instype rec) ["Equity"; "Future"]%string then
       mul3 (quantity rec) (multiplier rec) (price rec)
     else
       Raise (ValueError ("Invalid instrument type: " ++ instype rec)%string)) ;;
  quantize_context notional Q_places.

End Notional.

(** ** Tables: the operations of petl and numpy that the application uses *)

Module Table.

(** [table.values(field)] *)
Definition values {R A : Type} (field : R -> A) (table : list R) : list A :=
map field table.

(** [table.biselect(pred)]: the rows that satisfy [pred] and the others,
    each in table order. *)
Definition biselect {R : Type} (pred : R -> bool) (table : list R)
  : list R * list R :=
(filter pred table, filter (fun r => negb (pred r)) table).

(** [table.addfield(name, f)], the value of the new field being computed by
    a function that may raise. *)
Fixpoint addfield {R R' : Type} (f : R -> result R') (table : list R)
  : result (list R') :=
match table with
| [] => Ok []
| r :: rest =>
    r' <- f r ;;
    rest' <- addfield f rest ;;
    Ok (r' :: rest')
end.

(** Insertion in a sorted list, before the elements that are not smaller:
    with [sort_by] this is a stable sort, as Python's [sorted] is. *)
Fixpoint insert_sorted {R : Type} (le : R -> R -> bool) (x : R) (l : list R)
  : list R :=
match l with
| [] => [x]
| y :: l' => if le x y then x :: l else y :: insert_sorted le x l'
end.

(** [table.sort(key)] *)
Definition sort_by {R : Type} (le : R -> R -> bool) (table : list R) : list R :=
fold_right (insert_sorted le) [] table.

(** [itertools.groupby]: the maximal runs of rows with the same key. *)
Fixpoint groupby {R : Type} (same : R -> R -> bool) (l : list R)
  : list (list R) :=
match l with
| [] => []
| x :: l' =>
    match groupby same l' with
    | (y :: g) :: gs =>
        if same x y then (x :: y :: g) :: gs else [x] :: (y :: g) :: gs
    | gs => [x] :: gs
    end
end.

(** [table.addfieldusingcontext(name, query)]: [query] receives the previous
    output row (with the new field), the current row and the next row. *)
Fixpoint addfieldusingcontext {R R' V : Type}
  (extend : R -> V -> R') (query : option R' -> R -> option R -> V)
  (prv : option R') (rows : list R) : list R' :=
match rows with
| [] => []
| cur :: rest =>
    let v := query prv cur (hd_error rest) in
    let out := extend cur v in
    out :: addfieldusingcontext extend query (Some out) rest
end.

(** Python's [sum]: a left fold of [+] from [0]. *)
Definition sum (l : list Q) : Q := fold_left Qplus l 0.

(** [x < y] on Decimals *)
Definition Qlt_bool (x y : Q) : bool :=
match Qcompare x y with
| Lt => true
| _ => false
end.

End Table.

(** ** Chain statistics *)

Module Stats.
Import Dec Table.

(** A row of the chain table (the fields that the statistics read). *)
Record Chain : Type := mkChain {
  chain_id : string;
  init : Q;
  chain_pnl : Q;
  accr : Q
}.

(** A chain row with the added field [pct_cr]. *)
Record ChainPct : Type := mkChainPct {
  rec : Chain;
  pct_cr : Q
}.

(** [s.split(',')] *)
Fixpoint split_on (sep : ascii) (s : string) : list string :=
match s with
| EmptyString => [EmptyString]
| String c s' =>
    if Ascii.eqb c sep then EmptyString :: split_on sep s'
    else match split_on sep s' with
         | w :: ws => String c w :: ws
         | [] => [String c EmptyString]
         end
end.

(** [FilterChains], the request parameter [chain_ids] being an argument. *)
Definition FilterChains (chain_ids : option string) (table : list Chain)
  : list Chain :=
match chain_ids with
| None | Some EmptyString => table
| Some ids =>
    let selected_chain_ids := split_on ","%char ids in
    filter (fun r => existsb (String.eqb (chain_id r)) selected_chain_ids) table
end.

Definition PctCr (r : Chain) : result Q :=
if Qeq_bool (init r) 0 then Ok 0 else div (chain_pnl r) (init r).

(** A number as numpy returns it: a value, or [nan]. *)
Inductive num : Type :=
| Num (q : Q)
| NaN.

(** [np.sum(a)] on an array of Decimals *)
Definition np_sum (a : list Q) : Q :=
match a with
| [] => 0
| x :: rest => fold_left Qplus rest x
end.

(** [np.mean(a)]: [nan] (and a warning) on an empty array *)
Definition np_mean (a : list Q) : num :=
match a with
| [] => NaN
| _ => Num (np_sum a / inject_Z (Z.of_nat (List.length a)))
end.

(** [np.max(a)] and [np.min(a)]: an empty array raises. *)
Definition np_max (a : list Q) : result Q :=
match a with
| [] => Raise (ValueError "zero-size array to reduction operation maximum which has no identity")
| x :: rest => Ok (fold_left (fun m v => if Qle_bool v m then m else v) rest x)
end.

Definition np_min (a : list Q) : result Q :=
match a with
| [] => Raise (ValueError "zero-size array to reduction operation minimum which has no identity")
| x :: rest => Ok (fold_left (fun m v => if Qle_bool m v then m else v) rest x)
end.

(** [len(a) / len(b)] on Python integers *)
Definition int_truediv (a b : nat) : result Q :=
div (inject_Z (Z.of_nat a)) (inject_Z (Z.of_nat b)).

(** [Quantize(value) = Decimal(value).quantize(Decimal('0'))]: the value
    rounded to an integer, InvalidOperation when it has more than 28
    digits; a NaN stays a NaN. *)
Definition Quantize (value : num) : result num :=
match value with
| Num q => v <- quantize_context q 0 ;; Ok (Num v)
| NaN => Ok NaN
end.

(** A cell of the statistics table, before it is laid out as text. *)
Inductive cell : Type :=
| Text (s : string)
| Dollars (v : num)        (* ['${}'.format(v)] *)
| Count (k n : nat)        (* ['{}/{}'.format(k, n)] *)
| Percent (v : num).       (* ['{:.1%}'.format(v)] *)

(** [a.size] as a condition *)
Definition size (a : list Q) : bool := negb (Nat.eqb (List.length a) 0).

(** [chains.addfield('pct_cr', PctCr)], on one row *)
Definition with_pct_cr (r : Chain) : result ChainPct :=
p <- PctCr r ;;
Ok (mkChainPct r p).

(** The predicate of [biselect]: [lambda r: r.chain_pnl > 0] *)
Definition is_win (r : ChainPct) : bool := Qlt_bool 0 (chain_pnl (rec r)).

(** The body of [stats] up to the table [rows]. *)
Definition stats (chain_ids : option string) (STATE_chains : list Chain)
  : result (list (list cell)) :=
let chains := FilterChains chain_ids STATE_chains in
chains <- addfield with_pct_cr chains ;;
let (win, los) := biselect is_win chains in
let pnl := values (fun r => chain_pnl (rec r)) chains in
let pnl_win := values (fun r => chain_pnl (rec r)) win in
let pnl_los := values (fun r => chain_pnl (rec r)) los in
let init_cr := values (fun r => init (rec r)) chains in
let pct_cr_all := values pct_cr chains in
let pct_cr_win := values pct_cr win in
let pct_cr_los := values pct_cr los in
q_pnl <- Quantize (if size pnl then Num (np_sum pnl) else Num ZERO) ;;
let row_pnl := [Text "P/L"; Dollars q_pnl; Text ""; Text ""] in
ratio <- int_truediv (List.length pnl_win) (List.length pnl) ;;
let row_wins :=
  [Text "# of wins"; Count (List.length pnl_win) (List.length pnl);
   Percent (Num ratio); Text "% of wins"] in
q_init <- Quantize (np_mean init_cr) ;;
let row_init := [Text "Avg init credits"; Dollars q_init; Text ""; Text ""] in
q_avg <- Quantize (if size pnl then np_mean pnl else Num ZERO) ;;
let row_avg :=
  [Text "Avg P/L per trade"; Dollars q_avg;
   Percent (if size pct_cr_all then np_mean pct_cr_all else Num ZERO);
   Text "Avg %cr per trade"] in
q_win <- Quantize (if size pnl_win then np_mean pnl_win else Num ZERO) ;;
let row_avg_win :=
  [Text "Avg P/L win"; Dollars q_win;
   Percent (if size pct_cr_win then np_mean pct_cr_win else Num ZERO);
   Text "Avg %cr win"] in
q_los <- Quantize (if size pnl_los then np_mean pnl_los else Num ZERO) ;;
let row_avg_los :=
  [Text "Avg P/L loss"; Dollars q_los;
   Percent (if size pct_cr_los then np_mean pct_cr_los else Num ZERO);
   Text "Avg %cr loss"] in
max_win <- (if size pnl_win then np_max pnl_win else Ok ZERO) ;;
q_max_win <- Quantize (Num max_win) ;;
(* the two empty literals of this row are adjacent, without a comma: Python
   joins them into one *)
let row_max_win := [Text "Max win"; Dollars q_max_win; Text ""] in
max_los <- (if size pnl_los then np_min pnl_los else Ok ZERO) ;;
q_max_los <- Quantize (Num max_los) ;;
let row_max_los := [Text "Max loss"; Dollars q_max_los; Text ""; Text ""] in
Ok [[Text "Description"; Text "Stat"; Text "Stat%"; Text "Description"];
    row_pnl; row_wins; row_init; row_avg; row_avg_win; row_avg_los;
    row_max_win; row_max_los].

End Stats.

(** ** Ratio distribution *)

Module Ratio.

(** The literal [1e-6]: the binary64 number nearest to it. *)
Definition epsilon : float := 0x1.0c6f7a0b5ed8dp-20%float.

(** The default of [threshold] *)
Definition default_threshold : float := 1000%float.

(** [a[mask]]: the elements at the places where the mask holds; a mask of
    another length raises. *)
Fixpoint boolean_index {A : Type} (a : list A) (mask : list bool)
  : result (list A) :=
match a, mask with
| [], [] => Ok []
| x :: a', b :: mask' =>
    rest <- boolean_index a' mask' ;;
    Ok (if b then x :: rest else rest)
| _, _ => Raise IndexError
end.

(** [num / denom * 100], element by element, on arrays of one shape *)
Definition percent_ratio (num denom : list float) : list float :=
map (fun p => PrimFloat.mul (PrimFloat.div (fst p) (snd p)) 100%float)
    (combine num denom).

Definition RatioDistribution (num denom : list float) (threshold : float)
  : result (list float) :=
let mask := map (fun d => PrimFloat.ltb epsilon d) denom in
num1 <- boolean_index num mask ;;
denom1 <- boolean_index denom mask ;;
let mask :=
  map (fun n => PrimFloat.ltb n threshold
                && PrimFloat.ltb (PrimFloat.opp threshold) n) num1 in
num2 <- boolean_index num1 mask ;;
denom2 <- boolean_index denom1 mask ;;
Ok (percent_ratio num2 denom2).

(** The pairs that remain after the first pass (the first two lines of the
    body). *)
Definition epsilon_pass (num denom : list float)
  : result (list float * list float) :=
let mask := map (fun d => PrimFloat.ltb epsilon d) denom in
num1 <- boolean_index num mask ;;
denom1 <- boolean_index denom mask ;;
Ok (num1, denom1).

End Ratio.

(** ** Transactions of a chain *)

Module Txns.

(** An expanded transaction row.  [putcall] and [strike] are [None] on a row
    that is not an option. *)
Record Txn : Type := mkTxn {
  datetime : Z;
  order_id : string;
  instruction : string;
  effect : string;
  quantity : Q;
  symbol : string;
  price : Q;
  cost : Q;
  description : string;
  putcall : option string;
  strike : option Q
}.

(** [s and s[0] == c] on an optional string *)
Definition starts_with (c : ascii) (s : option string) : bool :=
match s with
| Some (String c' _) => Ascii.eqb c' c
| _ => false
end.

End Txns.

(** ** Trade history as text *)

Module History.
Import Dec Table Txns.

(** A row of the aggregation by [(datetime, order_id)]. *)
Record Group : Type := mkGroup {
  g_datetime : Z;
  g_order_id : string;
  static : string;
  puts : string;
  calls : string;
  g_cost : Q
}.

(** A row of [rendered_rows]: a group with its field [accr]. *)
Record Rendered : Type := mkRendered {
  group : Group;
  accr : Q
}.

(** [sep.join(l)] *)
Fixpoint join (sep : string) (l : list string) : string :=
match l with
| [] => EmptyString
| [s] => s
| s :: rest => (s ++ sep ++ join sep rest)%string
end.

(** The order of the keys [(datetime, order_id)] *)
Definition key_le (a b : Txn) : bool :=
match Z.compare (datetime a) (datetime b) with
| Lt => true
| Eq => String.leb (order_id a) (order_id b)
| Gt => false
end.

Definition key_eq (a b : Txn) : bool :=
Z.eqb (datetime a) (datetime b) && String.eqb (order_id a) (order_id b).

Section Rendering.

(** [str(d)] of a Decimal, and the layout of a table by petl's
    [lookallstr]: text layouts that the application takes from its
    libraries. *)
Variable str_decimal : Q -> string.
Variable lookallstr : list Rendered -> string.

(** [fmt.format(r=row)] *)
Definition fmt (r : Txn) : string :=
(instruction r ++ "/" ++ effect r ++ " " ++ str_decimal (quantity r) ++ " "
   ++ symbol r ++ " @ " ++ str_decimal (price r))%string.

Definition RenderStatic (rows : list Txn) : string :=
join "; " (map fmt (filter (fun row => match putcall row with
                                       | None => true
                                       | Some _ => false
                                       end) rows)).

Definition RenderPuts (rows : list Txn) : string :=
join "; " (map fmt (filter (fun row => starts_with "P" (putcall row)) rows)).

Definition RenderCalls (rows : list Txn) : string :=
join "; " (map fmt (filter (fun row => starts_with "C" (putcall row)) rows)).

Definition Accrue (prv : option Rendered) (cur : Group) (nxt : option Group)
  : Q :=
let last := match prv with
            | Some p => accr p
            | None => ZERO
            end in
last + g_cost cur.

(** [txns.aggregate(['datetime', 'order_id'], agg)]: the table is sorted by
    the key, and each run of rows with one key gives one row. *)
Definition aggregate_row (rows : list Txn) : list Group :=
match rows with
| [] => []
| r :: _ =>
    [mkGroup (datetime r) (order_id r)
       (RenderStatic rows) (RenderPuts rows) (RenderCalls rows)
       (sum (values cost rows))]
end.

Definition aggregate (txns : list Txn) : list Group :=
flat_map aggregate_row (groupby key_eq (sort_by key_le txns)).

Definition rendered_rows (txns : list Txn) : list Rendered :=
addfieldusingcontext mkRendered Accrue None (aggregate txns).

Definition RenderHistoryText (txns : list Txn) : string :=
("<pre>" ++ String "010" (lookallstr (rendered_rows txns)) ++ String "010"
   ("</pre>" ++ String "010" EmptyString))%string.

End Rendering.

End History.

(** ** Trade history as SVG *)

Module Svg.
Import Dec Table Txns.

(** What [RenderHistorySVG] prints, one constructor per print statement. *)
Inductive elem : Type :=
| Header                                 (* [<svg ...>] and the style sheet *)
| Axis                                   (* the horizontal line of the scale *)
| Tick (x : Z)                           (* the vertical line of a strike *)
| TickLabel (x : Z) (strike : Q)         (* the text of a strike *)
| Blank                                  (* [pr()] *)
| Label (x y : Z) (description : string) (* the text of a transaction *)
| Footer.                                (* [</svg>] *)

Inductive output : Type :=
| Message (s : string)
| Drawing (elems : list elem).

(** The order of [None] and Decimals in a sort of petl: [None] first. *)
Definition strike_le (a b : option Q) : bool :=
match a, b with
| None, _ => true
| Some _, None => false
| Some x, Some y => Qle_bool x y
end.

(** The order of the keys [(datetime, strike)] *)
Definition datetime_strike_le (a b : Txn) : bool :=
match Z.compare (datetime a) (datetime b) with
| Lt => true
| Eq => strike_le (strike a) (strike b)
| Gt => false
end.

Definition datetime_le (a b : Txn) : bool := Z.leb (datetime a) (datetime b).

(** The set comprehension: the strikes that are not [None], each value
    once. *)
Definition set_add (s : list Q) (x : Q) : list Q :=
if existsb (Qeq_bool x) s then s else s ++ [x].

Definition strike_set (rows : list Txn) : list Q :=
fold_left (fun s r => match strike r with
                      | Some k => set_add s k
                      | None => s
                      end) rows [].

(** [min(s)] and [max(s)] of a set that is not empty, [first] being one of
    its elements *)
Definition min_of (first : Q) (s : list Q) : Q :=
fold_left (fun m v => if Qlt_bool v m then v else m) s first.

Definition max_of (first : Q) (s : list Q) : Q :=
fold_left (fun m v => if Qlt_bool m v then v else m) s first.

(** [int((strike - min_strike) / diff_strike * width)] *)
Definition x_of (strike min_strike diff_strike width : Q) : result Z :=
q <- div (strike - min_strike) diff_strike ;;
Ok (to_int (q * width)).

(** The loop over the strikes *)
Fixpoint ticks (min_strike diff_strike width : Q) (strikes : list Q)
  : result (list elem) :=
match strikes with
| [] => Ok []
| strike :: rest =>
    x <- x_of strike min_strike diff_strike width ;;
    rest' <- ticks min_strike diff_strike width rest ;;
    Ok (Tick x :: TickLabel x strike :: rest')
end.

(** The loop over the records, from the state [(y, prev_time)] *)
Fixpoint labels (min_strike diff_strike width : Q) (records : list Txn)
  (y : Z) (prev_time : option Z) : result (list elem) :=
match records with
| [] => Ok []
| r :: rest =>
    let y := match prev_time with
             | Some t => if negb (Z.eqb t (datetime r)) then (y + 30)%Z else y
             | None => y
             end in
    let prev_time := Some (datetime r) in
    k <- match strike r with
         | Some k => Ok k
         | None => Raise TypeError
         end ;;
    x <- x_of k min_strike diff_strike width ;;
    rest' <- labels min_strike diff_strike width rest (y + 12)%Z prev_time ;;
    Ok (Label x y (description r) :: rest')
end.

Definition RenderHistorySVG (txns : list Txn) : result output :=
let clean_txns := sort_by datetime_strike_le txns in
let strikes := strike_set clean_txns in
match strikes with
| [] => Ok (Message "No transactions.")
| first :: _ =>
    let min_strike := min_of first strikes in
    let max_strike := max_of first strikes in
    let diff_strike := max_strike - min_strike in
    let diff_strike := if Qeq_bool diff_strike 0 then 1 else diff_strike in
    let width := 1000 in
    scale <- ticks min_strike diff_strike width (sort_by Qle_bool strikes) ;;
    texts <- labels min_strike diff_strike width
               (sort_by datetime_le clean_txns) 20%Z None ;;
    Ok (Drawing (Header :: Axis :: scale ++ Blank :: texts ++ [Footer]))
end.

End Svg.

(** ** Risk of the positions *)

Module Risk.
Import Dec Table Notional.

(** An expanded position row: the fields that [risk] reads, those of
    [GetNotional] being in [fields].  [cost] may be [None]; [expiration] is
    [None] on a row that does not expire. *)
Record Position : Type := mkPosition {
  account : string;
  underlying : string;
  expiration : option Z;
  cost : option Q;
  net_liq : Q;
  pnl_open : Q;
  fields : Rec
}.

(** A position after [.replace('cost', None, ZERO)] and
    [.addfield('notional', GetNotional)] *)
Record Valued : Type := mkValued {
  position : Position;
  v_cost : Q;
  v_notional : Q
}.

(** A row of the aggregation by [(underlying, expiration)] *)
Record RiskRow : Type := mkRiskRow {
  r_underlying : string;
  r_expiration : option Z;
  r_account : string;
  r_cost : Q;
  r_net_liq : Q;
  r_pnl_open : Q;
  r_notional : Q
}.

(** The row of the aggregation of the whole table *)
Record Total : Type := mkTotal {
  t_account : string;
  t_cost : Q;
  t_net_liq : Q;
  t_pnl_open : Q;
  t_notional : Q
}.

(** What [risk] hands to its template: the table and the three numbers,
    before they are laid out as text *)
Record Page : Type := mkPage {
  table : list RiskRow;
  notional : Q;
  page_net_liq : Q;
  leverage : Q
}.

(** [first(iterable)] of more_itertools: an empty iterable raises. *)
Definition first {A : Type} (l : list A) : result A :=
match l with
| [] => Raise (ValueError "first() was called on an empty iterable, and no default value was provided.")
| x :: _ => Ok x
end.

(** [.replace('cost', None, ZERO)] and [.addfield('notional', GetNotional)],
    on one row *)
Definition replace_cost (p : Position) : Q :=
match cost p with
| None => ZERO
| Some c => c
end.

Definition with_notional (p : Position) : result Valued :=
n <- GetNotional (fields p) ;;
Ok (mkValued p (replace_cost p) n).

(** The order of [None] and dates in a sort of petl: [None] first. *)
Definition expiration_le (a b : option Z) : bool :=
match a, b with
| None, _ => true
| Some _, None => false
| Some x, Some y => Z.leb x y
end.

(** The order and the equality of the keys [(underlying, expiration)] *)
Definition key_le (a b : Valued) : bool :=
match String.compare (underlying (position a)) (underlying (position b)) with
| Lt => true
| Eq => expiration_le (expiration (position a)) (expiration (position b))
| Gt => false
end.

Definition expiration_eq (a b : option Z) : bool :=
match a, b with
| None, None => true
| Some x, Some y => Z.eqb x y
| _, _ => false
end.

Definition key_eq (a b : Valued) : bool :=
String.eqb (underlying (position a)) (underlying (position b))
&& expiration_eq (expiration (position a)) (expiration (position b)).

(** One row of [.aggregate(('underlying', 'expiration'), agg)], from the
    rows of one key: the first account and the four sums *)
Definition aggregate_row (rows : list Valued) : list RiskRow :=
match rows with
| [] => []
| r :: _ =>
    [mkRiskRow (underlying (position r)) (expiration (position r))
       (account (position r))
       (sum (values v_cost rows))
       (sum (values (fun v => net_liq (position v)) rows))
       (sum (values (fun v => pnl_open (position v)) rows))
       (sum (values v_notional rows))]
end.

Definition aggregate (rows : list Valued) : list RiskRow :=
flat_map aggregate_row (groupby key_eq (sort_by key_le rows)).

(** [risk.aggregate(None, agg)]: one row for the whole table, none for an
    empty table *)
Definition aggregate_all (rows : list RiskRow) : list Total :=
match rows with
| [] => []
| r :: _ =>
    [mkTotal (r_account r)
       (sum (values r_cost rows))
       (sum (values r_net_liq rows))
       (sum (values r_pnl_open rows))
       (sum (values r_notional rows))]
end.

(** The body of [risk] up to the values given to the template. *)
Definition risk (STATE_positions : list Position) : result Page :=
valued <- addfield with_notional STATE_positions ;;
let risk := aggregate valued in
let total := aggregate_all risk in
n <- first (values t_notional total) ;;
let notional := Qabs n in
let net_liq := 1000000 in
leverage <- div notional net_liq ;;
Ok (mkPage risk notional net_liq leverage).

End Risk.

(** ** The data of the histogram of P/L by initial credits *)

Module Charts.
Import Table Stats Ratio.

Section Conversion.

(** [.astype(float)]: the conversion of a Decimal to binary64, which numpy
    provides *)
Variable astype_float : Q -> float.

(** The body of [stats_pnlpctinit] up to [data]. *)
Definition stats_pnlpctinit (chain_ids : option string)
  (STATE_chains : list Chain) : result (list float) :=
let chains := FilterChains chain_ids STATE_chains in
let pnl := map astype_float (values chain_pnl chains) in
let creds := map astype_float (values init chains) in
RatioDistribution pnl creds default_threshold.

End Conversion.

End Charts.

(** ** Reference definitions, in the words of the specification *)

Module Reference.
Import Notional.

(** [n] is [x] rounded to an integer, half to even: [n] is nearest to [x],
    and when [x] lies half way between two integers [n] is the even one. *)
Definition is_round_half_even (x : Q) (n : Z) : Prop :=
(- (1 # 2) <= x - inject_Z n <= 1 # 2)
/\ (x - inject_Z n == 1 # 2 \/ x - inject_Z n == - (1 # 2) -> Z.even n = true).

(** [v] is [x] quantized to 0.01 with round-half-even: [v] is a whole number
    [n] of cents, [n] being [100 x] rounded half to even. *)
Definition rounds_to_cents (x v : Q) : Prop :=
exists n : Z, v = inject_Z n / 100 /\ is_round_half_even (x * 100) n.

(** The instrument types of an expanded row *)
Definition is_option_type (t : string) : Prop :=
t = "EquityOption"%string \/ t = "FutureOption"%string.

Definition is_outright_type (t : string) : Prop :=
t = "Equity"%string \/ t = "Future"%string.

Definition known_type (t : string) : Prop :=
is_option_type t \/ is_outright_type t.

(** A put: [putcall] starts with "P"; a call: it starts with "C". *)
Definition is_put (r : Rec) : Prop :=
exists rest, putcall r = Some (String "P" rest).

Definition is_call (r : Rec) : Prop :=
exists rest, putcall r = Some (String "C" rest).

(** [putcall] is present and has a first character. *)
Definition putcall_nonempty (r : Rec) : Prop :=
exists c rest, putcall r = Some (String c rest).

(** The row [r] with another [putcall] *)
Definition set_putcall (r : Rec) (p : option string) : Rec :=
mkRec (instype r) p (quantity r) (multiplier r) (strike r) (price r).

(** Example rows: 100 shares at 50.00; two short puts and two short calls
    at the strike 45; an option row without [putcall]; a bond. *)
Definition row_equity : Rec := mkRec "Equity" None 100 1 0 50.
Definition row_put : Rec := mkRec "EquityOption" (Some "PUT"%string) (-2) 100 45 (3 # 2).
Definition row_call : Rec := mkRec "FutureOption" (Some "CALL"%string) (-2) 100 45 (3 # 2).
Definition row_no_putcall : Rec := mkRec "EquityOption" None (-2) 100 45 (3 # 2).
Definition row_bond : Rec := mkRec "Bond" None 1 1 0 100.

(** A number of at most 28 significant digits: a coefficient below 10^28
    in absolute value, times a power of ten whose exponent is in the range
    of the context.  The context represents these numbers exactly. *)
Definition fits_context (x : Q) : Prop :=
exists c k : Z,
  (Z.abs c < 10 ^ Dec.prec)%Z
  /\ (Dec.etiny <= k <= Dec.emax - (Dec.prec - 1))%Z
  /\ x == inject_Z c * 10 ^ k.

(** An amount whose number of cents is at most 10^28 - 1, in absolute
    value *)
Definition cents_fit (x : Q) : Prop :=
Qabs (x * 100) <= inject_Z (10 ^ Dec.prec - 1).

(** Example rows: 10^26 shares at 1.00; one share at a price of 29
    significant digits, just below 0.135 *)
Definition row_huge : Rec :=
mkRec "Equity" None (inject_Z (10 ^ 26)) 1 0 1.

Definition row_long : Rec :=
mkRec "Equity" None 1 1 0
  (13499999999999999999999999999 # 100000000000000000000000000000).



(** The pairs whose denominator has an absolute value of at least 1e-6 *)
Definition denominator_abs_ge (p : float * float) : bool :=
PrimFloat.leb Ratio.epsilon (PrimFloat.abs (snd p)).

(** The pairs whose denominator is above 1e-6 *)
Definition denominator_gt (p : float * float) : bool :=
PrimFloat.ltb Ratio.epsilon (snd p).

(** The pairs whose numerator lies in the open interval
    (-threshold, threshold) *)
Definition numerator_inside (threshold : float) (p : float * float) : bool :=
PrimFloat.ltb (fst p) threshold
&& PrimFloat.ltb (PrimFloat.opp threshold) (fst p).

(** numerator / denominator * 100 *)
Definition percent (p : float * float) : float :=
PrimFloat.mul (PrimFloat.div (fst p) (snd p)) 100%float.

(** The two sequences of a list of pairs *)
Definition unzip (l : list (float * float)) : list float * list float :=
(map fst l, map snd l).

(** The key of the aggregation of the history: [(datetime, order_id)] *)
Definition txn_key (t : Txns.Txn) : Z * string :=
(Txns.datetime t, Txns.order_id t).

Definition group_key (g : History.Group) : Z * string :=
(History.g_datetime g, History.g_order_id g).

(** The order of the keys (a tuple of Python: datetime first, then
    order_id), its strict part and the equality of keys *)
Definition key_leb (j k : Z * string) : bool :=
match Z.compare (fst j) (fst k) with
| Lt => true
| Eq => String.leb (snd j) (snd k)
| Gt => false
end.

Definition key_before (j k : Z * string) : Prop :=
(fst j < fst k)%Z \/ (fst j = fst k /\ String.ltb (snd j) (snd k) = true).

Definition key_eqb (j k : Z * string) : bool :=
Z.eqb (fst j) (fst k) && String.eqb (snd j) (snd k).



(** The vertical positions of the rows of the drawing: 12 px after every
    row, and 30 px more before a row whose datetime is not that of the row
    before it. *)
Fixpoint band_ys (y : Z) (previous : option Z) (datetimes : list Z) : list Z :=
match datetimes with
| [] => []
| d :: rest =>
    let y := match previous with
             | Some p => if Z.eqb p d then y else (y + 30)%Z
             | None => y
             end in
    y :: band_ys (y + 12)%Z (Some d) rest
end.

(** The vertical positions of the transaction texts of a drawing, and the
    horizontal positions of its scale ticks *)
Definition label_ys (elems : list Svg.elem) : list Z :=
flat_map (fun e => match e with
                   | Svg.Label _ y _ => [y]
                   | _ => []
                   end) elems.

Definition tick_xs (elems : list Svg.elem) : list Z :=
flat_map (fun e => match e with
                   | Svg.Tick x => [x]
                   | _ => []
                   end) elems.

(** Example transactions: three puts at the strikes 100, 105 and 110 in one
    execution event, and the same with the second one in a later event. *)
Definition leg (time : Z) (order : string) (k : Q) (c : Q) (text : string)
  : Txns.Txn :=
Txns.mkTxn time order "SELL" "OPENING" (-1) "SPY" 2 c text
  (Some "PUT"%string) (Some k).

Definition one_event : list Txns.Txn :=
[leg 5 "o1" 110 200 "c"; leg 5 "o1" 100 150 "a"; leg 5 "o1" 105 175 "b"].

Definition two_events : list Txns.Txn :=
[leg 5 "o1" 110 200 "c"; leg 7 "o2" 105 (-75) "b"; leg 5 "o1" 100 150 "a"].

(** A layout of Decimals that shows nothing *)
Definition str_blank (d : Q) : string := EmptyString.

(** Example chains: a winner (P/L 100 on an initial credit of 200) and a
    loser (P/L -50 on an initial credit of 100). *)
Definition chain_winner : Stats.Chain := Stats.mkChain "w" 200 100 0.
Definition chain_loser : Stats.Chain := Stats.mkChain "l" 100 (-50) 0.

End Reference.

(** ** Further definitions for the statements below *)

Module Extra.
Import Notional.

(** The row [r] with the opposite quantity *)
Definition opposite (r : Rec) : Rec :=
mkRec (instype r) (putcall r) (- quantity r) (multiplier r) (strike r)
  (price r).

(** [c in s] on a string *)
Fixpoint contains (c : ascii) (s : string) : bool :=
match s with
| EmptyString => false
| String c' rest => Ascii.eqb c' c || contains c rest
end.


(** A leg whose [putcall] is present and starts with neither "P" nor "C" *)
Definition other_leg (t : Txns.Txn) : Prop :=
exists s, Txns.putcall t = Some s
          /\ Txns.starts_with "P" (Some s) = false
          /\ Txns.starts_with "C" (Some s) = false.

(** The horizontal positions of the transaction texts of a drawing *)
Definition label_xs (elems : list Svg.elem) : list Z :=
flat_map (fun e => match e with
                   | Svg.Label x _ _ => [x]
                   | _ => []
                   end) elems.

(** Example transactions: a stock leg, without strike, beside a put *)
Definition stock_and_put : list Txns.Txn :=
[Txns.mkTxn 5 "o1" "BUY" "OPENING" 100 "SPY" 400 (-40000) "stock" None None;
 Reference.leg 5 "o1" 390 150 "put"].





(** Example positions: a stock, a short put on it, a bond *)
Definition position_stock : Risk.Position :=
Risk.mkPosition "x1" "SPY" None (Some (-5000)) 5100 100 Reference.row_equity.

Definition position_put : Risk.Position :=
Risk.mkPosition "x1" "SPY" (Some 20210917%Z) None (-250) 50 Reference.row_put.

Definition position_bond : Risk.Position :=
Risk.mkPosition "x2" "ZB" None (Some 100) 100 0 Reference.row_bond.

(** The notional of a position, where [GetNotional] gives one *)
Definition notional_of (p : Risk.Position) : Q :=
match GetNotional (Risk.fields p) with
| Py.Ok v => v
| Py.Raise _ => 0
end.

End Extra.

(** * Properties *)

(** ** Decimal rounding *)

Module DecFacts.
Import Dec Reference.

Lemma floor_fraction (x : Q) :
  0 <= x - inject_Z (Qfloor x) /\ x - inject_Z (Qfloor x) < 1.
Proof.
  pose proof (Qfloor_le x) as Hlo.
  pose proof (Qlt_floor x) as Hhi.
  rewrite inject_Z_plus in Hhi.
  change (inject_Z 1) with 1 in Hhi.
  split; lra.
Qed.

Lemma round_half_even_correct (x : Q) :
  is_round_half_even x (round_half_even x).
Proof.
  unfold is_round_half_even, round_half_even.
  destruct (floor_fraction x) as [Hlo Hhi].
  set (f := Qfloor x) in *.
  destruct (Qcompare_spec (x - inject_Z f) (1 # 2)) as [He | Hl | Hg].
  - destruct (Z.even f) eqn:Hev.
    + split; [lra | intros _; exact Hev].
    + rewrite inject_Z_plus. change (inject_Z 1) with 1.
      split; [lra | intros _].
      rewrite Z.even_add, Hev. reflexivity.
  - split; [lra | intros [H | H]; lra].
  - rewrite inject_Z_plus. change (inject_Z 1) with 1.
    split; [lra | intros [H | H]; lra].
Qed.

Lemma inject_Z_gap (n m : Z) :
  inject_Z n - inject_Z m <= 1 -> inject_Z m - inject_Z n <= 1 ->
  (n = m \/ n = m + 1 \/ m = n + 1)%Z.
Proof.
  intros H1 H2.
  assert (Hn : inject_Z n <= inject_Z (m + 1)).
  { rewrite inject_Z_plus. change (inject_Z 1) with 1. lra. }
  assert (Hm : inject_Z m <= inject_Z (n + 1)).
  { rewrite inject_Z_plus. change (inject_Z 1) with 1. lra. }
  rewrite <- Zle_Qle in Hn, Hm. lia.
Qed.

(** Round-half-even determines its result. *)
Lemma round_half_even_unique (x : Q) (n m : Z) :
  is_round_half_even x n -> is_round_half_even x m -> n = m.
Proof.
  intros [[Hn1 Hn2] Hn3] [[Hm1 Hm2] Hm3].
  destruct (inject_Z_gap n m) as [H | [H | H]]; try lra; trivial; subst.
  - rewrite inject_Z_plus in *. change (inject_Z 1) with 1 in *.
    assert (E1 : Z.even (m + 1) = true) by (apply Hn3; right; lra).
    assert (E2 : Z.even m = true) by (apply Hm3; left; lra).
    rewrite Z.even_add, E2 in E1. discriminate.
  - rewrite inject_Z_plus in *. change (inject_Z 1) with 1 in *.
    assert (E1 : Z.even (n + 1) = true) by (apply Hm3; right; lra).
    assert (E2 : Z.even n = true) by (apply Hn3; left; lra).
    rewrite Z.even_add, E2 in E1. discriminate.
Qed.

Lemma quantize_cents (x : Q) : rounds_to_cents x (quantize x Q_places).
Proof.
  exists (round_half_even (x * 100)). split.
  - reflexivity.
  - apply round_half_even_correct.
Qed.

(** The division raises on a zero divisor only. *)
Lemma div_ok (x y : Q) : ~ y == 0 -> div x y = Ok (x / y).
Proof.
  intros H. unfold div.
  destruct (Qeq_bool y 0) eqn:E; [| reflexivity].
  apply Qeq_bool_iff in E. contradiction.
Qed.

Lemma div_raises (x y : Q) (e : exn) : div x y = Raise e -> y == 0.
Proof.
  unfold div. destruct (Qeq_bool y 0) eqn:E; [| discriminate].
  intros _. apply Qeq_bool_iff. exact E.
Qed.

Lemma is_round_half_even_eq (x y : Q) (n : Z) :
  x == y -> is_round_half_even x n -> is_round_half_even y n.
Proof.
  intros E [[H1 H2] H3]. split; [split; lra |].
  intros [H | H]; apply H3; [left | right]; lra.
Qed.

Lemma round_half_even_eq (x y : Q) :
  x == y -> round_half_even x = round_half_even y.
Proof.
  intros E. apply (round_half_even_unique y).
  - apply (is_round_half_even_eq x y _ E), round_half_even_correct.
  - apply round_half_even_correct.
Qed.

Lemma round_half_even_opp (x : Q) :
  round_half_even (- x) = (- round_half_even x)%Z.
Proof.
  apply (round_half_even_unique (- x)); [apply round_half_even_correct |].
  destruct (round_half_even_correct x) as [[H1 H2] H3].
  unfold is_round_half_even. rewrite inject_Z_opp, Z.even_opp.
  split; [split; lra |].
  intros [H | H]; apply H3; [right | left]; lra.
Qed.

Lemma round_half_even_Z (x : Q) (n : Z) :
  x == inject_Z n -> round_half_even x = n.
Proof.
  intros E. apply (round_half_even_unique x); [apply round_half_even_correct |].
  split; [split; lra |].
  intros [H | H]; lra.
Qed.

Lemma scale_nonzero (places : nat) :
  ~ inject_Z (10 ^ Z.of_nat places) == 0.
Proof.
  intros H.
  assert (Hp : (0 < 10 ^ Z.of_nat places)%Z).
  { apply Z.pow_pos_nonneg; lia. }
  unfold Qeq in H; simpl in H. lia.
Qed.

Lemma quantize_eq (x y : Q) (places : nat) :
  x == y -> quantize x places = quantize y places.
Proof.
  intros E. unfold quantize; cbv zeta.
  rewrite (round_half_even_eq (x * inject_Z (10 ^ Z.of_nat places))
             (y * inject_Z (10 ^ Z.of_nat places))); [reflexivity |].
  rewrite E. reflexivity.
Qed.

Lemma quantize_opp (x : Q) (places : nat) :
  quantize (- x) places == - quantize x places.
Proof.
  unfold quantize; cbv zeta.
  rewrite (round_half_even_eq (- x * inject_Z (10 ^ Z.of_nat places))
             (- (x * inject_Z (10 ^ Z.of_nat places)))) by ring.
  rewrite round_half_even_opp, inject_Z_opp.
  field. apply scale_nonzero.
Qed.

Lemma quantize_exact (x : Q) (places : nat) (n : Z) :
  x * inject_Z (10 ^ Z.of_nat places) == inject_Z n ->
  quantize x places == x.
Proof.
  intros E. unfold quantize; cbv zeta.
  rewrite (round_half_even_Z _ n E), <- E.
  field. apply scale_nonzero.
Qed.

(** *** The Decimal context *)

Lemma digits_aux_spec (fuel : nat) : forall n : Z,
  (0 < n < 2 ^ Z.of_nat fuel)%Z ->
  (1 <= digits_aux fuel n
   /\ 10 ^ (digits_aux fuel n - 1) <= n < 10 ^ digits_aux fuel n)%Z.
Proof.
  induction fuel as [| fuel IH]; intros n Hn.
  - simpl in Hn. lia.
  - cbn [digits_aux]. destruct (n <? 10)%Z eqn:E.
    + apply Z.ltb_lt in E. simpl. lia.
    + apply Z.ltb_ge in E.
      assert (Hq : (0 < n / 10 < 2 ^ Z.of_nat fuel)%Z).
      { rewrite Nat2Z.inj_succ, Z.pow_succ_r in Hn by lia.
        split; [apply Z.div_str_pos; lia |].
        apply Z.div_lt_upper_bound; lia. }
      destruct (IH _ Hq) as [H1 [H2 H3]].
      set (d := digits_aux fuel (n / 10)) in *.
      pose proof (Z.mul_div_le n 10 ltac:(lia)) as Hd.
      pose proof (Z.mul_succ_div_gt n 10 ltac:(lia)) as Hu.
      replace (1 + d - 1)%Z with (Z.succ (d - 1)) by lia.
      replace (1 + d)%Z with (Z.succ d) by lia.
      rewrite !Z.pow_succ_r by lia.
      split; [lia | split; lia].
Qed.

Lemma digits_spec (n : Z) :
  (0 < n)%Z ->
  (1 <= digits n /\ 10 ^ (digits n - 1) <= n < 10 ^ digits n)%Z.
Proof.
  intros Hn. unfold digits. apply digits_aux_spec.
  pose proof (Z.log2_nonneg n) as Hl.
  destruct (Z.log2_spec n Hn) as [_ Hu].
  rewrite Nat2Z.inj_succ, Z2Nat.id by lia. lia.
Qed.

Lemma ten_pos (k : Z) : 0 < 10 ^ k.
Proof. apply Qpower_0_lt. reflexivity. Qed.

Lemma ten_plus (j k : Z) : 10 ^ (j + k) == 10 ^ j * 10 ^ k.
Proof. apply Qpower_plus. discriminate. Qed.

Lemma ten_Z (k : Z) : (0 <= k)%Z -> inject_Z (10 ^ k) == 10 ^ k.
Proof. intros H. apply (Zpower_Qpower 10 k H). Qed.

(** The magnitude of a positive number is a lower bound of it. *)
Lemma magnitude_le (x : Q) : 0 < x -> 10 ^ magnitude x <= x.
Proof.
  intros Hx. unfold magnitude; cbv zeta.
  destruct (Qle_bool _ x) eqn:E; [apply Qle_bool_iff; exact E |].
  destruct x as [n d]. cbn [Qnum Qden].
  assert (Hn : (0 < n)%Z) by (unfold Qlt in Hx; simpl in Hx; lia).
  destruct (digits_spec n Hn) as [Ha [Hlo _]].
  destruct (digits_spec (Zpos d) eq_refl) as [Hb [_ Hhi]].
  set (a := digits n) in *. set (b := digits (Zpos d)) in *.
  assert (E1 : 10 ^ (a - b - 1) * 10 ^ b == 10 ^ (a - 1)).
  { rewrite <- ten_plus. replace (a - b - 1 + b)%Z with (a - 1)%Z by lia.
    reflexivity. }
  assert (E2 : inject_Z (Zpos d) <= 10 ^ b).
  { rewrite <- ten_Z by lia. rewrite <- Zle_Qle. lia. }
  assert (E3 : 10 ^ (a - 1) <= inject_Z n).
  { rewrite <- ten_Z by lia. rewrite <- Zle_Qle. lia. }
  assert (E4 : 10 ^ (a - b - 1) * inject_Z (Zpos d) <= inject_Z n).
  { pose proof (ten_pos (a - b - 1)) as Hp.
    assert (10 ^ (a - b - 1) * inject_Z (Zpos d)
            <= 10 ^ (a - b - 1) * 10 ^ b) by nra.
    lra. }
  assert (E5 : n # d == inject_Z n / inject_Z (Zpos d)).
  { apply Qmake_Qdiv. }
  rewrite E5. apply Qle_shift_div_l; [reflexivity | exact E4].
Qed.

Lemma magnitude_lt (x : Q) (n : Z) :
  0 < x -> x < 10 ^ n -> (magnitude x < n)%Z.
Proof.
  intros Hx Hn. pose proof (magnitude_le x Hx) as Hm.
  apply (Qpower_lt_compat_l_inv 10); [lra | reflexivity].
Qed.

Lemma round_positive_exact (x : Q) (c k : Z) :
  0 < x -> (Z.abs c < 10 ^ prec)%Z -> (etiny <= k)%Z ->
  x == inject_Z c * 10 ^ k ->
  round_positive x == x.
Proof.
  intros Hx Hc Hk' E. unfold round_positive; cbv zeta.
  set (e := Z.max (magnitude x - (prec - 1)) etiny).
  pose proof (ten_pos k) as Hk.
  assert (Hc' : inject_Z c < 10 ^ prec).
  { rewrite <- ten_Z by (unfold prec; lia). rewrite <- Zlt_Qlt. lia. }
  assert (Hlt : (magnitude x < prec + k)%Z).
  { apply (magnitude_lt x _ Hx). rewrite ten_plus.
    assert (inject_Z c * 10 ^ k < 10 ^ prec * 10 ^ k) by nra. lra. }
  assert (He : (0 <= k - e)%Z) by (unfold e; lia).
  assert (E1 : x * 10 ^ (- e) == inject_Z (c * 10 ^ (k - e))).
  { rewrite inject_Z_mult, (ten_Z _ He), E.
    replace (k - e)%Z with (k + - e)%Z by lia.
    rewrite ten_plus. ring. }
  rewrite (round_half_even_Z _ _ E1).
  rewrite inject_Z_mult, (ten_Z _ He), E.
  assert (E2 : 10 ^ (k - e) * 10 ^ e == 10 ^ k).
  { rewrite <- ten_plus. replace (k - e + e)%Z with k by lia. reflexivity. }
  rewrite <- E2. ring.
Qed.

Lemma round_context_eq (x y : Q) : x == y -> round_context x = round_context y.
Proof.
  intros E. unfold round_context.
  rewrite (Qcompare_comp x y E 0 0 (Qeq_refl 0)).
  rewrite (Qred_complete x y E).
  rewrite (Qred_complete (- x) (- y)) by (rewrite E; reflexivity).
  reflexivity.
Qed.

Lemma round_context_opp (x : Q) : round_context (- x) == - round_context x.
Proof.
  unfold round_context.
  destruct (Qcompare_spec x 0) as [H | H | H];
    destruct (Qcompare_spec (- x) 0) as [H' | H' | H']; try lra.
  rewrite (Qred_complete (- - x) x) by ring. reflexivity.
Qed.

(** A value of at most [prec] significant digits is not changed by the
    rounding of the context. *)
Lemma round_context_exact (x : Q) (c k : Z) :
  (Z.abs c < 10 ^ prec)%Z -> (etiny <= k)%Z -> x == inject_Z c * 10 ^ k ->
  round_context x == x.
Proof.
  intros Hc Hk E. unfold round_context.
  destruct (Qcompare_spec x 0) as [H | H | H].
  - lra.
  - rewrite (round_positive_exact (Qred (- x)) (- c) k).
    + rewrite Qred_correct. ring.
    + rewrite Qred_correct. lra.
    + rewrite Z.abs_opp. exact Hc.
    + exact Hk.
    + rewrite Qred_correct, inject_Z_opp, E. ring.
  - rewrite (round_positive_exact (Qred x) c k).
    + apply Qred_correct.
    + rewrite Qred_correct. exact H.
    + exact Hc.
    + exact Hk.
    + rewrite Qred_correct. exact E.
Qed.

(** The operations of the context depend on the values only. *)
Lemma fix_context_eq (x y : Q) : x == y -> fix_context x = fix_context y.
Proof.
  intros E. unfold fix_context. rewrite (round_context_eq x y E).
  reflexivity.
Qed.

Lemma mul_eq (x x' y y' : Q) : x == x' -> y == y' -> mul x y = mul x' y'.
Proof.
  intros Ex Ey. unfold mul. apply fix_context_eq.
  rewrite Ex, Ey. reflexivity.
Qed.

Lemma fix_context_cases (x : Q) :
  fix_context x = Ok (round_context x) \/ fix_context x = Raise Overflow.
Proof.
  unfold fix_context; cbv zeta. destruct (_ <? _)%Z; [right | left];
    reflexivity.
Qed.

(** The operations of the context are symmetric. *)
Lemma fix_context_opp (x y : Q) :
  y == - x ->
  match fix_context x with
  | Ok v => exists v', fix_context y = Ok v' /\ v' == - v
  | Raise e => fix_context y = Raise e
  end.
Proof.
  intros E. rewrite (fix_context_eq y (- x) E).
  unfold fix_context; cbv zeta.
  rewrite (Qred_complete (Qabs (round_context (- x)))
             (Qabs (round_context x)))
    by (rewrite round_context_opp; apply Qabs_opp).
  destruct (_ <? _)%Z; [reflexivity |].
  eexists. split; [reflexivity | apply round_context_opp].
Qed.

Lemma mul_opp_l (x y : Q) :
  match mul x y with
  | Ok v => exists v', mul (- x) y = Ok v' /\ v' == - v
  | Raise e => mul (- x) y = Raise e
  end.
Proof. unfold mul. apply fix_context_opp. ring. Qed.

(** A value of at most [prec] significant digits, in the range of the
    exponents, is the result of the operation. *)
Lemma fix_context_exact (x : Q) (c k : Z) :
  (Z.abs c < 10 ^ prec)%Z -> (etiny <= k <= emax - (prec - 1))%Z ->
  x == inject_Z c * 10 ^ k ->
  exists r, fix_context x = Ok r /\ r == x.
Proof.
  intros Hc [Hk1 Hk2] E.
  pose proof (round_context_exact x c k Hc Hk1 E) as Hr.
  exists (round_context x). split; [| exact Hr].
  unfold fix_context; cbv zeta.
  destruct (Z.ltb_spec emax (magnitude (Qred (Qabs (round_context x)))))
    as [L | L]; [exfalso | reflexivity].
  destruct (Qeq_dec x 0) as [Z0 | N0].
  - rewrite (Qred_complete (Qabs (round_context x)) 0) in L
      by (rewrite Hr, Z0; reflexivity).
    vm_compute in L. discriminate L.
  - assert (Hpos : 0 < Qred (Qabs (round_context x))).
    { rewrite Qred_correct, Hr.
      pose proof (Qabs_nonneg x) as Ha.
      destruct (Qeq_dec (Qabs x) 0) as [A0 | A0]; [| lra].
      exfalso. apply N0. revert A0. apply Qabs_case; intros; lra. }
    assert (Hlt : Qred (Qabs (round_context x)) < 10 ^ (emax + 1)).
    { rewrite Qred_correct, Hr, E, Qabs_Qmult.
      rewrite (Qabs_pos (10 ^ k)) by (apply Qlt_le_weak, ten_pos).
      change (Qabs (inject_Z c)) with (inject_Z (Z.abs c)).
      assert (Hc' : inject_Z (Z.abs c) < 10 ^ prec).
      { rewrite <- ten_Z by (unfold prec; lia). rewrite <- Zlt_Qlt. lia. }
      assert (Hk' : 10 ^ k <= 10 ^ (emax - (prec - 1))).
      { apply Qpower_le_compat_l; [exact Hk2 | discriminate]. }
      assert (Ep : 10 ^ (emax + 1) == 10 ^ prec * 10 ^ (emax - (prec - 1))).
      { rewrite <- ten_plus.
        replace (prec + (emax - (prec - 1)))%Z with (emax + 1)%Z
          by reflexivity.
        reflexivity. }
      pose proof (ten_pos k) as Hkp.
      assert (0 <= inject_Z (Z.abs c)).
      { change 0 with (inject_Z 0). rewrite <- Zle_Qle. lia. }
      rewrite Ep. nra. }
    pose proof (magnitude_lt _ _ Hpos Hlt). lia.
Qed.

Lemma mul3_eq (x x' y z : Q) : x == x' -> mul3 x y z = mul3 x' y z.
Proof.
  intros E. unfold mul3.
  rewrite (mul_eq x x' y y E (Qeq_refl y)). reflexivity.
Qed.

Lemma mul3_opp (x y z : Q) :
  match mul3 x y z with
  | Ok v => exists v', mul3 (- x) y z = Ok v' /\ v' == - v
  | Raise e => mul3 (- x) y z = Raise e
  end.
Proof.
  unfold mul3. pose proof (mul_opp_l x y) as H.
  destruct (mul x y) as [p | e]; cbn [bind].
  - destruct H as (p' & -> & Ep). cbn [bind].
    rewrite (mul_eq p' (- p) z z Ep (Qeq_refl z)). apply mul_opp_l.
  - rewrite H. reflexivity.
Qed.

Lemma mul3_cases (x y z : Q) :
  mul3 x y z = Raise Overflow \/ exists n, mul3 x y z = Ok n.
Proof.
  unfold mul3, mul.
  destruct (fix_context_cases (x * y)) as [-> | ->]; cbn [bind];
    [| left; reflexivity].
  destruct (fix_context_cases (round_context (x * y) * z)) as [E | E];
    rewrite E; [right; eexists | left]; reflexivity.
Qed.

(** The product of three factors is exact when the context represents the
    product of the first two and the whole product. *)
Lemma mul3_exact (x y z : Q) :
  fits_context (x * y) -> fits_context (x * y * z) ->
  exists n, mul3 x y z = Ok n /\ n == x * y * z.
Proof.
  intros (c & k & Hc & Hk & E) (c' & k' & Hc' & Hk' & E').
  unfold mul3, mul.
  destruct (fix_context_exact _ c k Hc Hk E) as (p & -> & Ep). cbn [bind].
  rewrite (fix_context_eq (p * z) (x * y * z)) by (rewrite Ep; reflexivity).
  apply (fix_context_exact _ c' k' Hc' Hk' E').
Qed.

Lemma round_half_even_bound (x : Q) (n : Z) :
  Qabs x <= inject_Z n -> (Z.abs (round_half_even x) <= n)%Z.
Proof.
  intros H. apply Qabs_Qle_condition in H. destruct H as [H1 H2].
  destruct (round_half_even_correct x) as [[Ha Hb] _].
  set (r := round_half_even x) in *.
  assert (Hu : (r <= n)%Z).
  { destruct (Z_le_gt_dec r n) as [L | G]; [exact L |].
    assert (inject_Z (n + 1) <= inject_Z r) by (rewrite <- Zle_Qle; lia).
    rewrite inject_Z_plus in H. change (inject_Z 1) with 1 in H. lra. }
  assert (Hl : (- n <= r)%Z).
  { destruct (Z_le_gt_dec (- n) r) as [L | G]; [exact L |].
    assert (inject_Z r <= inject_Z (- n - 1)) by (rewrite <- Zle_Qle; lia).
    unfold Z.sub in H. rewrite inject_Z_plus, !inject_Z_opp in H.
    change (inject_Z 1) with 1 in H. lra. }
  lia.
Qed.

Lemma quantize_context_eq (x y : Q) (places : nat) :
  x == y -> quantize_context x places = quantize_context y places.
Proof.
  intros E. unfold quantize_context; cbv zeta.
  rewrite (round_half_even_eq (x * inject_Z (10 ^ Z.of_nat places))
             (y * inject_Z (10 ^ Z.of_nat places))) by (rewrite E; reflexivity).
  rewrite (quantize_eq x y places E). reflexivity.
Qed.

(** [quantize] succeeds when the rounded coefficient has at most [prec]
    digits, and gives the rounded value then. *)
Lemma quantize_context_ok (x : Q) (places : nat) :
  Qabs (x * inject_Z (10 ^ Z.of_nat places)) <= inject_Z (10 ^ prec - 1) ->
  quantize_context x places = Ok (quantize x places).
Proof.
  intros H. unfold quantize_context; cbv zeta.
  apply round_half_even_bound in H.
  destruct (Z.leb_spec (10 ^ prec) 
              (Z.abs (round_half_even (x * inject_Z (10 ^ Z.of_nat places)))))
    as [L | L]; [lia | reflexivity].
Qed.

Lemma quantize_context_cases (x : Q) (places : nat) :
  quantize_context x places = Ok (quantize x places)
  \/ quantize_context x places = Raise InvalidOperation.
Proof.
  unfold quantize_context; cbv zeta.
  destruct (_ <=? _)%Z; [right | left]; reflexivity.
Qed.

Lemma quantize_context_value (x v : Q) (places : nat) :
  quantize_context x places = Ok v -> v = quantize x places.
Proof.
  destruct (quantize_context_cases x places) as [E | E]; rewrite E;
    intros H; inversion H; reflexivity.
Qed.

End DecFacts.

(** ** Notional *)

Module NotionalFacts.
Import Dec Notional Reference DecFacts.

Lemma str_in_option (t : string) :
  str_in t ["EquityOption"; "FutureOption"]%string = true <-> is_option_type t.
Proof.
  unfold str_in, is_option_type; simpl.
  rewrite !orb_true_iff, !String.eqb_eq. intuition discriminate.
Qed.

Lemma str_in_outright (t : string) :
  str_in t ["Equity"; "Future"]%string = true <-> is_outright_type t.
Proof.
  unfold str_in, is_outright_type; simpl.
  rewrite !orb_true_iff, !String.eqb_eq. intuition discriminate.
Qed.

Lemma option_not_outright (t : string) :
  is_option_type t -> str_in t ["Equity"; "Future"]%string = false.
Proof.
  intros [-> | ->]; reflexivity.
Qed.

Lemma outright_not_option (t : string) :
  is_outright_type t -> str_in t ["EquityOption"; "FutureOption"]%string = false.
Proof.
  intros [-> | ->]; reflexivity.
Qed.

(** The three branches of [GetNotional] *)
Lemma GetNotional_outright (r : Rec) :
  is_outright_type (instype r) ->
  GetNotional r =
  (notional <- mul3 (quantity r) (multiplier r) (price r) ;;
   quantize_context notional Q_places).
Proof.
  intros H. unfold GetNotional.
  rewrite (outright_not_option _ H).
  apply str_in_outright in H. rewrite H. reflexivity.
Qed.

Lemma GetNotional_option (r : Rec) (c : ascii) (rest : string) :
  is_option_type (instype r) -> putcall r = Some (String c rest) ->
  GetNotional r =
  (notional <- (if Ascii.eqb c "P"
                then mul3 (quantity r) (multiplier r) (strike r)
                else Ok ZERO) ;;
   quantize_context notional Q_places).
Proof.
  intros H Hp. unfold GetNotional.
  apply str_in_option in H. rewrite H, Hp. cbn [first_char bind].
  reflexivity.
Qed.

Lemma GetNotional_unknown (r : Rec) :
  ~ known_type (instype r) ->
  GetNotional r =
  Raise (ValueError ("Invalid instrument type: " ++ instype r)%string).
Proof.
  intros H. unfold GetNotional.
  destruct (str_in (instype r) ["EquityOption"; "FutureOption"]%string) eqn:E1.
  { exfalso. apply H. left. apply str_in_option. exact E1. }
  destruct (str_in (instype r) ["Equity"; "Future"]%string) eqn:E2.
  { exfalso. apply H. right. apply str_in_outright. exact E2. }
  reflexivity.
Qed.

Lemma known_type_dec (t : string) : known_type t \/ ~ known_type t.
Proof.
  destruct (str_in t ["EquityOption"; "FutureOption"]%string) eqn:E1.
  { left; left. apply str_in_option, E1. }
  destruct (str_in t ["Equity"; "Future"]%string) eqn:E2.
  { left; right. apply str_in_outright, E2. }
  right. intros [H | H].
  - apply str_in_option in H. congruence.
  - apply str_in_outright in H. congruence.
Qed.

Lemma quantize_zero : quantize ZERO Q_places == 0.
Proof. reflexivity. Qed.

Lemma quantize_context_zero :
  quantize_context ZERO Q_places = Ok (quantize ZERO Q_places).
Proof. vm_compute. reflexivity. Qed.

(** The amount of a row: the product in the context, quantized *)
Lemma amount_cases (x y z : Q) :
  (notional <- mul3 x y z ;; quantize_context notional Q_places)
  = Raise Overflow
  \/ (notional <- mul3 x y z ;; quantize_context notional Q_places)
     = Raise InvalidOperation
  \/ exists n v,
       mul3 x y z = Ok n
       /\ (notional <- mul3 x y z ;; quantize_context notional Q_places)
          = Ok v
       /\ rounds_to_cents n v.
Proof.
  destruct (mul3_cases x y z) as [-> | (n & ->)]; cbn [bind];
    [left; reflexivity | right].
  destruct (quantize_context_cases n Q_places) as [E | E]; rewrite E.
  - right. exists n, (quantize n Q_places).
    split; [reflexivity | split; [reflexivity | apply quantize_cents]].
  - left. reflexivity.
Qed.

Lemma amount_raises (x y z : Q) (e : exn) :
  (notional <- mul3 x y z ;; quantize_context notional Q_places) = Raise e ->
  e = Overflow \/ e = InvalidOperation.
Proof.
  destruct (amount_cases x y z) as [E | [E | (n & v & _ & E & _)]];
    rewrite E; intros H; inversion H; auto.
Qed.

Lemma amount_exact (x y z : Q) :
  fits_context (x * y) -> fits_context (x * y * z) ->
  cents_fit (x * y * z) ->
  (notional <- mul3 x y z ;; quantize_context notional Q_places)
  = Ok (quantize (x * y * z) Q_places).
Proof.
  intros H1 H2 H3.
  destruct (mul3_exact x y z H1 H2) as (n & -> & En). cbn [bind].
  rewrite (quantize_context_eq _ _ Q_places En).
  apply quantize_context_ok. exact H3.
Qed.

(*NF*)
(** C3 as the specification words it does not hold: the price of
    [row_long] has 29 significant digits, the context rounds the product to
    0.1350000000000000000000000000 before it is quantized, and the notional
    is 0.14, where quantity * multiplier * price quantized to 0.01 is 0.13;
    on [row_huge] the quantization raises InvalidOperation and there is no
    notional at all. *)
Lemma GetNotional_reference_counterexample :
  ~ (exists v, GetNotional row_long = Ok v
               /\ rounds_to_cents
                    (quantity row_long * multiplier row_long * price row_long)
                    v)
  /\ GetNotional row_long = Ok (inject_Z 14 / 100)
  /\ rounds_to_cents
       (quantity row_long * multiplier row_long * price row_long)
       (inject_Z 13 / 100)
  /\ GetNotional row_huge = Raise InvalidOperation.
Proof.
  assert (R : is_round_half_even
                (quantity row_long * multiplier row_long * price row_long
                 * 100) 13).
  { apply (round_half_even_correct
             (quantity row_long * multiplier row_long * price row_long
              * 100)). }
  assert (G : GetNotional row_long = Ok (inject_Z 14 / 100)).
  { vm_compute. reflexivity. }
  split; [| split; [exact G | split]].
  - intros (v & Hv & n & -> & Hn).
    rewrite (round_half_even_unique _ _ _ Hn R) in Hv.
    rewrite G in Hv. vm_compute in Hv. discriminate Hv.
  - exists 13%Z. split; [reflexivity | exact R].
  - vm_compute. reflexivity.
Qed.

(** C3, amended.  On a row of type Equity or Future, [GetNotional] returns
    the product (quantity * multiplier) * price as the context computes it,
    each multiplication rounded to 28 significant digits, quantized to 0.01
    with round-half-even, or raises Overflow or InvalidOperation; on a put
    of type EquityOption or FutureOption the same with the strike; on a call
    it returns 0.  When quantity * multiplier and the whole product have at
    most 28 significant digits and the product is at most 10^28 - 1 cents,
    the notional is the exact product quantized to 0.01 with
    round-half-even. *)
Theorem GetNotional_reference (r : Rec) :
  (is_outright_type (instype r) ->
   GetNotional r = Raise Overflow
   \/ GetNotional r = Raise InvalidOperation
   \/ exists n v,
        mul3 (quantity r) (multiplier r) (price r) = Ok n
        /\ GetNotional r = Ok v /\ rounds_to_cents n v)
  /\ (is_outright_type (instype r) ->
      fits_context (quantity r * multiplier r) ->
      fits_context (quantity r * multiplier r * price r) ->
      cents_fit (quantity r * multiplier r * price r) ->
      exists v, GetNotional r = Ok v
                /\ rounds_to_cents (quantity r * multiplier r * price r) v)
  /\ (is_option_type (instype r) -> is_put r ->
      GetNotional r = Raise Overflow
      \/ GetNotional r = Raise InvalidOperation
      \/ exists n v,
           mul3 (quantity r) (multiplier r) (strike r) = Ok n
           /\ GetNotional r = Ok v /\ rounds_to_cents n v)
  /\ (is_option_type (instype r) -> is_put r ->
      fits_context (quantity r * multiplier r) ->
      fits_context (quantity r * multiplier r * strike r) ->
      cents_fit (quantity r * multiplier r * strike r) ->
      exists v, GetNotional r = Ok v
                /\ rounds_to_cents (quantity r * multiplier r * strike r) v)
  /\ (is_option_type (instype r) -> is_call r ->
      exists v, GetNotional r = Ok v /\ v == 0).
Proof.
  split; [| split; [| split; [| split]]].
  - intros H. rewrite (GetNotional_outright r H). apply amount_cases.
  - intros H F1 F2 F3. eexists. split.
    + rewrite (GetNotional_outright r H).
      apply (amount_exact _ _ _ F1 F2 F3).
    + apply quantize_cents.
  - intros H [rest Hp]. rewrite (GetNotional_option r _ _ H Hp).
    apply amount_cases.
  - intros H [rest Hp] F1 F2 F3. eexists. split.
    + rewrite (GetNotional_option r _ _ H Hp).
      apply (amount_exact _ _ _ F1 F2 F3).
    + apply quantize_cents.
  - intros H [rest Hp]. eexists. split.
    + rewrite (GetNotional_option r _ _ H Hp).
      apply quantize_context_zero.
    + apply quantize_zero.
Qed.

Lemma fits_context_Z (x : Q) (c : Z) :
  (Z.abs c < 10 ^ prec)%Z -> x == inject_Z c -> fits_context x.
Proof.
  intros Hc E. exists c, 0%Z. split; [exact Hc |].
  split; [split; discriminate |].
  rewrite E. change (10 ^ 0) with 1. ring.
Qed.

Lemma GetNotional_reference_witness :
  (exists v, GetNotional row_equity = Ok v
             /\ rounds_to_cents (100 * 1 * 50) v)
  /\ (exists v, GetNotional row_put = Ok v
                /\ rounds_to_cents (-2 * 100 * 45) v)
  /\ (exists v, GetNotional row_call = Ok v /\ v == 0).
Proof.
  split; [| split].
  - apply (proj1 (proj2 (GetNotional_reference row_equity))).
    + left; reflexivity.
    + apply (fits_context_Z _ 100); [reflexivity | reflexivity].
    + apply (fits_context_Z _ 5000); [reflexivity | reflexivity].
    + vm_compute. discriminate.
  - apply (proj1 (proj2 (proj2 (proj2 (GetNotional_reference row_put))))).
    + left; reflexivity.
    + exists "UT"%string; reflexivity.
    + apply (fits_context_Z _ (-200)); [reflexivity | reflexivity].
    + apply (fits_context_Z _ (-9000)); [reflexivity | reflexivity].
    + vm_compute. discriminate.
  - apply (proj2 (proj2 (proj2 (proj2 (GetNotional_reference row_call))))).
    + right; reflexivity.
    + exists "ALL"%string; reflexivity.
Defined.

(** C4 as the specification words it does not hold: an option row without
    [putcall] has a known instrument type, and [GetNotional] fails on it. *)
Lemma GetNotional_failure_counterexample :
  ~ (faults (GetNotional row_no_putcall)
     <-> ~ known_type (instype row_no_putcall)).
Proof.
  intros [H _]. apply H.
  - exists TypeError. reflexivity.
  - left; left; reflexivity.
Qed.

(** C4, amended.  [GetNotional] raises the error of an invalid instrument
    type if and only if the type is none of EquityOption, FutureOption,
    Equity and Future, and the error carries the type.  On a row of one of
    these types it may fail in two other ways: on an option row whose
    [putcall] is missing or empty, and with Overflow or InvalidOperation
    when the product or the notional is beyond the numbers of the context.
    On a row whose [putcall] is not empty when its type is an option type
    and whose products have at most 28 significant digits and at most
    10^28 - 1 cents, [GetNotional] fails if and only if the type is none of
    the four. *)
Theorem GetNotional_failure (r : Rec) :
  ((exists msg, GetNotional r = Raise (ValueError msg))
   <-> ~ known_type (instype r))
  /\ (~ known_type (instype r) ->
      GetNotional r =
      Raise (ValueError ("Invalid instrument type: " ++ instype r)%string))
  /\ ((is_option_type (instype r) -> putcall_nonempty r) ->
      forall e, GetNotional r = Raise e ->
                ~ known_type (instype r)
                \/ e = Overflow \/ e = InvalidOperation)
  /\ ((is_option_type (instype r) -> putcall_nonempty r) ->
      fits_context (quantity r * multiplier r) ->
      fits_context (quantity r * multiplier r * strike r) ->
      cents_fit (quantity r * multiplier r * strike r) ->
      fits_context (quantity r * multiplier r * price r) ->
      cents_fit (quantity r * multiplier r * price r) ->
      (faults (GetNotional r) <-> ~ known_type (instype r))).
Proof.
  assert (K : forall r, known_type (instype r) ->
              (is_option_type (instype r) -> putcall_nonempty r) ->
              forall e, GetNotional r = Raise e ->
                        e = Overflow \/ e = InvalidOperation).
  { intros r' [Ho | Hu] Hpc e He.
    - destruct (Hpc Ho) as (c & rest & Hp).
      rewrite (GetNotional_option r' c rest Ho Hp) in He.
      destruct (Ascii.eqb c "P").
      + apply (amount_raises _ _ _ _ He).
      + cbn [bind] in He. rewrite quantize_context_zero in He.
        discriminate He.
    - rewrite (GetNotional_outright r' Hu) in He.
      apply (amount_raises _ _ _ _ He). }
  split; [split | split; [| split]].
  - intros [msg He] Hk.
    destruct (putcall r) as [[| c rest] |] eqn:Hp.
    + destruct Hk as [Ho | Hu].
      * unfold GetNotional in He. apply str_in_option in Ho.
        rewrite Ho, Hp in He. discriminate He.
      * rewrite (GetNotional_outright r Hu) in He.
        destruct (amount_raises _ _ _ _ He); discriminate.
    + destruct (K r Hk) with (e := ValueError msg);
        [exists c, rest; exact Hp | exact He | discriminate | discriminate].
    + destruct Hk as [Ho | Hu].
      * unfold GetNotional in He. apply str_in_option in Ho.
        rewrite Ho, Hp in He. discriminate He.
      * rewrite (GetNotional_outright r Hu) in He.
        destruct (amount_raises _ _ _ _ He); discriminate.
  - intros H. eexists. apply GetNotional_unknown, H.
  - apply GetNotional_unknown.
  - intros Hpc e He.
    destruct (known_type_dec (instype r)) as [Hk | Hn];
      [right; exact (K r Hk Hpc e He) | left; exact Hn].
  - intros Hpc F1 Fs Cs Fp Cp. split.
    + intros [e He] [Ho | Hu].
      * destruct (Hpc Ho) as (c & rest & Hp).
        rewrite (GetNotional_option r c rest Ho Hp) in He.
        destruct (Ascii.eqb c "P").
        -- rewrite (amount_exact _ _ _ F1 Fs Cs) in He. discriminate He.
        -- cbn [bind] in He. rewrite quantize_context_zero in He.
           discriminate He.
      * rewrite (GetNotional_outright r Hu) in He.
        rewrite (amount_exact _ _ _ F1 Fp Cp) in He. discriminate He.
    + intros H. eexists. apply GetNotional_unknown, H.
Qed.

Lemma GetNotional_failure_witness :
  (faults (GetNotional row_bond) <-> ~ known_type (instype row_bond))
  /\ (faults (GetNotional row_equity)
      <-> ~ known_type (instype row_equity)).
Proof.
  split.
  - apply (proj2 (proj2 (proj2 (GetNotional_failure row_bond)))).
    + intros [H | H]; discriminate H.
    + apply (fits_context_Z _ 1); reflexivity.
    + apply (fits_context_Z _ 0); reflexivity.
    + vm_compute. discriminate.
    + apply (fits_context_Z _ 100); reflexivity.
    + vm_compute. discriminate.
  - apply (proj2 (proj2 (proj2 (GetNotional_failure row_equity)))).
    + intros [H | H]; discriminate H.
    + apply (fits_context_Z _ 100); reflexivity.
    + apply (fits_context_Z _ 0); reflexivity.
    + vm_compute. discriminate.
    + apply (fits_context_Z _ 5000); reflexivity.
    + vm_compute. discriminate.
Defined.

(** C10.  On a row of type EquityOption or FutureOption, [GetNotional]
    reads the first character of [putcall] only: the notional is 0 whenever
    [putcall] starts with a character other than "P", the rest of [putcall]
    does not change the result, and a result is returned only if [putcall]
    is present and not empty. *)
Theorem GetNotional_first_char (r : Rec) :
  is_option_type (instype r) ->
  (forall c rest, putcall r = Some (String c rest) -> c <> "P"%char ->
                  exists v, GetNotional r = Ok v /\ v == 0)
  /\ (forall c rest rest',
        GetNotional (set_putcall r (Some (String c rest)))
        = GetNotional (set_putcall r (Some (String c rest'))))
  /\ (forall v, GetNotional r = Ok v -> putcall_nonempty r)
  /\ (putcall r = None -> GetNotional r = Raise TypeError)
  /\ (putcall r = Some EmptyString -> GetNotional r = Raise IndexError).
Proof.
  intros Ho. split; [| split; [| split; [| split]]].
  - intros c rest Hp Hc. eexists. split.
    + rewrite (GetNotional_option r c rest Ho Hp).
      apply Ascii.eqb_neq in Hc. rewrite Hc. apply quantize_context_zero.
    + apply quantize_zero.
  - intros c rest rest'.
    rewrite (GetNotional_option (set_putcall r (Some (String c rest))) c rest Ho eq_refl).
    rewrite (GetNotional_option (set_putcall r (Some (String c rest'))) c rest' Ho eq_refl).
    reflexivity.
  - intros v Hv. unfold GetNotional in Hv.
    apply str_in_option in Ho. rewrite Ho in Hv.
    unfold putcall_nonempty.
    destruct (putcall r) as [[| c rest] |]; cbn [first_char bind] in Hv;
      try discriminate.
    exists c, rest. reflexivity.
  - intros Hp. unfold GetNotional.
    apply str_in_option in Ho. rewrite Ho, Hp. reflexivity.
  - intros Hp. unfold GetNotional.
    apply str_in_option in Ho. rewrite Ho, Hp. reflexivity.
Qed.

Lemma GetNotional_first_char_witness :
  exists v, GetNotional row_call = Ok v /\ v == 0.
Proof.
  apply (proj1 (GetNotional_first_char row_call (or_intror eq_refl))
           "C"%char "ALL"%string eq_refl).
  discriminate.
Defined.

End NotionalFacts.

(** ** Chain statistics *)

Module StatsFacts.
Import Dec Table Stats Reference DecFacts.

Lemma Qlt_bool_true (x y : Q) : Qlt_bool x y = true <-> x < y.
Proof.
  unfold Qlt_bool.
  destruct (Qcompare_spec x y) as [H | H | H]; split; intros H';
    try discriminate; try reflexivity; try exact H; lra.
Qed.

Lemma Qlt_bool_false (x y : Q) : Qlt_bool x y = false <-> y <= x.
Proof.
  unfold Qlt_bool.
  destruct (Qcompare_spec x y) as [H | H | H]; split; intros H';
    try discriminate; try reflexivity; lra.
Qed.

Lemma PctCr_value (r : Chain) :
  PctCr r = Ok (if Qeq_bool (init r) 0 then 0 else chain_pnl r / init r).
Proof.
  unfold PctCr, div. destruct (Qeq_bool (init r) 0); reflexivity.
Qed.



(** The field [pct_cr] is added to every row of every table. *)
Lemma addfield_with_pct_cr (chains : list Chain) :
  exists rows, addfield with_pct_cr chains = Ok rows
               /\ map rec rows = chains.
Proof.
  induction chains as [| r chains (rows & IH & Hrec)]; simpl.
  - exists []. split; reflexivity.
  - unfold with_pct_cr at 1. rewrite PctCr_value. simpl.
    rewrite IH. simpl. eexists. split; [reflexivity |].
    simpl. rewrite Hrec. reflexivity.
Qed.

(** The unguarded mean: on an empty array it is [nan], which [Quantize]
    keeps. *)
Lemma avg_init_credits_empty : Quantize (np_mean []) = Ok NaN.
Proof. reflexivity. Qed.

(** [Quantize] gives the value rounded to an integer, or raises
    InvalidOperation. *)
Lemma Quantize_value (q : Q) (v : num) :
  Quantize (Num q) = Ok v -> v = Num (quantize q 0).
Proof.
  unfold Quantize.
  destruct (quantize_context_cases q 0) as [E | E]; rewrite E; cbn [bind];
    intros H; inversion H; reflexivity.
Qed.

Lemma Quantize_raises (x : num) (e : exn) :
  Quantize x = Raise e -> e = InvalidOperation.
Proof.
  destruct x as [q |]; [| discriminate]. unfold Quantize.
  destruct (quantize_context_cases q 0) as [E | E]; rewrite E; cbn [bind];
    intros H; inversion H; reflexivity.
Qed.

Lemma guarded_max_ok (a : list Q) :
  exists m, (if size a then np_max a else Ok ZERO) = Ok m.
Proof. destruct a; eexists; reflexivity. Qed.

Lemma guarded_min_ok (a : list Q) :
  exists m, (if size a then np_min a else Ok ZERO) = Ok m.
Proof. destruct a; eexists; reflexivity. Qed.

Ltac bind_ok H :=
  match type of H with
  | bind ?m _ = Ok _ =>
      let E := fresh "E" in
      destruct m eqn:E; cbn [bind] in H; [| discriminate H]
  end.

(** What [stats] has computed when it returns its table *)
Lemma stats_inv (chain_ids : option string) (STATE_chains : list Chain)
  (rows : list (list cell)) :
  stats chain_ids STATE_chains = Ok rows ->
  exists (chains : list ChainPct)
         (q_pnl q_init q_avg q_win q_los q_max_win q_max_los : num)
         (ratio max_win max_los : Q),
    let win := filter is_win chains in
    let los := filter (fun r => negb (is_win r)) chains in
    let pnl := values (fun r => chain_pnl (rec r)) in
    let pct := values pct_cr in
    addfield with_pct_cr (FilterChains chain_ids STATE_chains) = Ok chains
    /\ map rec chains = FilterChains chain_ids STATE_chains
    /\ Quantize (if size (pnl chains) then Num (np_sum (pnl chains))
                 else Num ZERO) = Ok q_pnl
    /\ int_truediv (List.length (pnl win)) (List.length (pnl chains))
       = Ok ratio
    /\ Quantize (np_mean (values (fun r => init (rec r)) chains)) = Ok q_init
    /\ Quantize (if size (pnl chains) then np_mean (pnl chains)
                 else Num ZERO) = Ok q_avg
    /\ Quantize (if size (pnl win) then np_mean (pnl win) else Num ZERO)
       = Ok q_win
    /\ Quantize (if size (pnl los) then np_mean (pnl los) else Num ZERO)
       = Ok q_los
    /\ (if size (pnl win) then np_max (pnl win) else Ok ZERO) = Ok max_win
    /\ Quantize (Num max_win) = Ok q_max_win
    /\ (if size (pnl los) then np_min (pnl los) else Ok ZERO) = Ok max_los
    /\ Quantize (Num max_los) = Ok q_max_los
    /\ rows
       = [[Text "Description"; Text "Stat"; Text "Stat%"; Text "Description"];
          [Text "P/L"; Dollars q_pnl; Text ""; Text ""];
          [Text "# of wins";
           Count (List.length (pnl win)) (List.length (pnl chains));
           Percent (Num ratio); Text "% of wins"];
          [Text "Avg init credits"; Dollars q_init; Text ""; Text ""];
          [Text "Avg P/L per trade"; Dollars q_avg;
           Percent (if size (pct chains) then np_mean (pct chains)
                    else Num ZERO);
           Text "Avg %cr per trade"];
          [Text "Avg P/L win"; Dollars q_win;
           Percent (if size (pct win) then np_mean (pct win) else Num ZERO);
           Text "Avg %cr win"];
          [Text "Avg P/L loss"; Dollars q_los;
           Percent (if size (pct los) then np_mean (pct los) else Num ZERO);
           Text "Avg %cr loss"];
          [Text "Max win"; Dollars q_max_win; Text ""];
          [Text "Max loss"; Dollars q_max_los; Text ""; Text ""]].
Proof.
  intros H. unfold stats in H.
  destruct (addfield_with_pct_cr (FilterChains chain_ids STATE_chains))
    as (cps & E0 & Hrec).
  rewrite E0 in H. cbn [bind] in H. unfold biselect in H.
  repeat bind_ok H.
  injection H as <-.
  exists cps. do 10 eexists. cbv zeta.
  repeat (split; [eassumption |]). reflexivity.
Qed.

(** [stats] raises on an empty table of chains, by the division of the
    number of wins, and when an amount has more than 28 digits. *)
Lemma stats_raises (chain_ids : option string) (STATE_chains : list Chain)
  (e : exn) :
  stats chain_ids STATE_chains = Raise e ->
  (e = ZeroDivisionError /\ FilterChains chain_ids STATE_chains = [])
  \/ e = InvalidOperation.
Proof.
  intros H. unfold stats in H.
  destruct (addfield_with_pct_cr (FilterChains chain_ids STATE_chains))
    as (cps & E0 & Hrec).
  rewrite E0 in H. cbn [bind] in H. unfold biselect in H.
  repeat match type of H with
  | bind (Quantize ?x) _ = Raise _ =>
      let E := fresh "E" in
      destruct (Quantize x) eqn:E; cbn [bind] in H;
      [| right; injection H as <-; apply (Quantize_raises _ _ E)]
  end.
  destruct (int_truediv _ _) as [ratio | e'] eqn:Er; cbn [bind] in H.
  - repeat match type of H with
    | bind (Quantize ?x) _ = Raise _ =>
        let E := fresh "E" in
        destruct (Quantize x) eqn:E; cbn [bind] in H;
        [| right; injection H as <-; apply (Quantize_raises _ _ E)]
    end.
    destruct (guarded_max_ok
                (values (fun r => chain_pnl (rec r)) (filter is_win cps)))
      as (mw & Emw).
    rewrite Emw in H. cbn [bind] in H.
    destruct (Quantize (Num mw)) eqn:Qw; cbn [bind] in H;
      [| right; injection H as <-; apply (Quantize_raises _ _ Qw)].
    destruct (guarded_min_ok
                (values (fun r => chain_pnl (rec r))
                   (filter (fun r => negb (is_win r)) cps)))
      as (ml & Eml).
    rewrite Eml in H. cbn [bind] in H.
    destruct (Quantize (Num ml)) eqn:Ql; cbn [bind] in H;
      [discriminate H | right; injection H as <-;
                        apply (Quantize_raises _ _ Ql)].
  - left. injection H as <-.
    unfold int_truediv in Er.
    assert (Ee : e' = ZeroDivisionError).
    { unfold div in Er. destruct (Qeq_bool _ _); [| discriminate Er].
      injection Er as <-. reflexivity. }
    split; [exact Ee |].
    apply div_raises in Er. unfold Qeq in Er; simpl in Er.
    unfold values in Er. rewrite length_map in Er.
    assert (Hn : List.length cps = 0%nat) by lia.
    apply length_zero_iff_nil in Hn. subst cps. symmetry. exact Hrec.
Qed.

(** C1.  When no chain is left after the filter, [stats] does not return
    rows of zeros and blanks: the ratio of the number of wins to the number
    of chains divides by zero, and [stats] raises. *)
Theorem stats_no_chain (chain_ids : option string) (STATE_chains : list Chain) :
  FilterChains chain_ids STATE_chains = [] ->
  stats chain_ids STATE_chains = Raise ZeroDivisionError.
Proof.
  intros H. unfold stats. rewrite H. reflexivity.
Qed.

Lemma stats_no_chain_witness :
  stats (Some "a,b"%string) [chain_winner; chain_loser]
  = Raise ZeroDivisionError
  /\ stats None [] = Raise ZeroDivisionError.
Proof.
  split.
  - apply (stats_no_chain (Some "a,b"%string) [chain_winner; chain_loser]).
    reflexivity.
  - apply (stats_no_chain None []). reflexivity.
Defined.

Lemma filter_partition {A : Type} (p : A -> bool) (l : list A) :
  Permutation (filter p l ++ filter (fun r => negb (p r)) l) l.
Proof.
  induction l as [| x l IH]; simpl.
  - constructor.
  - destruct (p x); simpl.
    + constructor. exact IH.
    + apply Permutation_sym, Permutation_cons_app, Permutation_sym, IH.
Qed.

Lemma biselect_lengths {A : Type} (p : A -> bool) (l : list A) :
  (List.length (fst (biselect p l)) + List.length (snd (biselect p l))
   = List.length l)%nat.
Proof.
  unfold biselect; simpl.
  rewrite <- length_app.
  apply Permutation_length, filter_partition.
Qed.

Lemma biselect_partition (chains : list ChainPct) :
  let win := fst (biselect is_win chains) in
  let los := snd (biselect is_win chains) in
  (forall r, In r win <-> In r chains /\ 0 < chain_pnl (rec r))
  /\ (forall r, In r los <-> In r chains /\ chain_pnl (rec r) <= 0)
  /\ (forall r, ~ (In r win /\ In r los))
  /\ Permutation (win ++ los) chains.
Proof.
  cbv zeta. unfold biselect; simpl.
  assert (Hwin : forall r, In r (filter is_win chains)
                           <-> In r chains /\ 0 < chain_pnl (rec r)).
  { intros r. rewrite filter_In. unfold is_win.
    rewrite Qlt_bool_true. reflexivity. }
  assert (Hlos : forall r, In r (filter (fun r => negb (is_win r)) chains)
                           <-> In r chains /\ chain_pnl (rec r) <= 0).
  { intros r. rewrite filter_In, negb_true_iff. unfold is_win.
    rewrite Qlt_bool_false. reflexivity. }
  split; [exact Hwin |]. split; [exact Hlos |]. split.
  - intros r [Hw Hl]. apply Hwin in Hw. apply Hlos in Hl. lra.
  - apply filter_partition.
Qed.





Lemma int_truediv_value (a b : nat) (q : Q) :
  int_truediv a b = Ok q ->
  q = inject_Z (Z.of_nat a) / inject_Z (Z.of_nat b).
Proof.
  unfold int_truediv, div. destruct (Qeq_bool _ _); [discriminate |].
  intros H. injection H as <-. reflexivity.
Qed.



End StatsFacts.

(** ** Ratio distribution *)

Module RatioFacts.
Import Ratio Reference.

Section BooleanIndex.
Context {A B : Type}.

Lemma combine_fst_snd (l : list (A * B)) :
  combine (map fst l) (map snd l) = l.
Proof.
  induction l as [| [a b] l IH]; simpl; [| rewrite IH]; reflexivity.
Qed.

Lemma zip_unzip (a : list A) (b : list B) :
  List.length a = List.length b ->
  map fst (combine a b) = a /\ map snd (combine a b) = b.
Proof.
  revert b. induction a as [| x a IH]; intros [| y b] H; try discriminate.
  - split; reflexivity.
  - simpl. injection H as H. destruct (IH b H) as [-> ->].
    split; reflexivity.
Qed.

(** Indexing both columns of a list of pairs by one mask is a filter of the
    pairs. *)
Lemma boolean_index_fst (p : A * B -> bool) (l : list (A * B)) :
  boolean_index (map fst l) (map p l) = Ok (map fst (filter p l)).
Proof.
  induction l as [| x l IH]; simpl; [reflexivity |].
  rewrite IH. simpl. destruct (p x); reflexivity.
Qed.

Lemma boolean_index_snd (p : A * B -> bool) (l : list (A * B)) :
  boolean_index (map snd l) (map p l) = Ok (map snd (filter p l)).
Proof.
  induction l as [| x l IH]; simpl; [reflexivity |].
  rewrite IH. simpl. destruct (p x); reflexivity.
Qed.

Lemma boolean_index_mismatch (a : list A) (mask : list bool) :
  List.length a <> List.length mask -> boolean_index a mask = Raise IndexError.
Proof.
  revert mask. induction a as [| x a IH]; intros [| b mask] H; simpl in *;
    try reflexivity; try congruence.
  rewrite IH; [reflexivity | congruence].
Qed.

End BooleanIndex.

(** The first pass of [RatioDistribution], on sequences of one length *)
Lemma epsilon_pass_filter (num denom : list float) :
  List.length num = List.length denom ->
  epsilon_pass num denom
  = Ok (unzip (filter denominator_gt (combine num denom))).
Proof.
  intros H. destruct (zip_unzip num denom H) as [Hn Hd].
  unfold epsilon_pass.
  assert (Hm : map (fun d => PrimFloat.ltb epsilon d) denom
               = map denominator_gt (combine num denom)).
  { rewrite <- Hd at 1. rewrite map_map. reflexivity. }
  rewrite Hm.
  rewrite <- Hn at 1. rewrite boolean_index_fst. simpl.
  rewrite <- Hd at 1. rewrite boolean_index_snd. reflexivity.
Qed.

(** [RatioDistribution] is its first pass followed by the second. *)
Lemma RatioDistribution_passes (num denom : list float) (threshold : float) :
  RatioDistribution num denom threshold
  = (p <- epsilon_pass num denom ;;
     let mask := map (fun n => PrimFloat.ltb n threshold
                               && PrimFloat.ltb (PrimFloat.opp threshold) n)
                     (fst p) in
     num2 <- boolean_index (fst p) mask ;;
     denom2 <- boolean_index (snd p) mask ;;
     Ok (percent_ratio num2 denom2)).
Proof.
  unfold RatioDistribution, epsilon_pass.
  destruct (boolean_index num _) as [num1 |]; simpl; [| reflexivity].
  destruct (boolean_index denom _) as [denom1 |]; reflexivity.
Qed.

Lemma RatioDistribution_filter (num denom : list float) (threshold : float) :
  List.length num = List.length denom ->
  RatioDistribution num denom threshold
  = Ok (map percent
          (filter (numerator_inside threshold)
             (filter denominator_gt (combine num denom)))).
Proof.
  intros H. rewrite RatioDistribution_passes, (epsilon_pass_filter _ _ H).
  set (l := filter denominator_gt (combine num denom)). simpl.
  assert (Hm : map (fun n => PrimFloat.ltb n threshold
                             && PrimFloat.ltb (PrimFloat.opp threshold) n)
                   (map fst l)
               = map (numerator_inside threshold) l).
  { rewrite map_map. reflexivity. }
  rewrite Hm, boolean_index_fst. simpl.
  rewrite boolean_index_snd. simpl.
  unfold percent_ratio. rewrite combine_fst_snd. reflexivity.
Qed.

(** On binary64 numbers: [x] is not above a positive number that is above
    the absolute value of [x]. *)
Lemma SFltb_abs_not_above (m0 : positive) (e0 : Z) (x : spec_float) :
  SFltb (SFabs x) (S754_finite false m0 e0) = true ->
  SFltb (S754_finite false m0 e0) x = false.
Proof.
  destruct x as [s | s | | s m e]; unfold SFltb; simpl; try discriminate.
  - reflexivity.
  - destruct s; [reflexivity |].
    rewrite (Z.compare_antisym e e0).
    destruct (Z.compare e e0); simpl; try discriminate; try reflexivity.
    change (Pos.compare_cont Eq m m0) with (Pos.compare m m0).
    change (Pos.compare_cont Eq m0 m) with (Pos.compare m0 m).
    rewrite (Pos.compare_antisym m m0).
    destruct (Pos.compare m m0); simpl; try discriminate; reflexivity.
Qed.

Lemma epsilon_binary64 :
  Prim2SF epsilon = S754_finite false 4722366482869645 (-72).
Proof. vm_compute. reflexivity. Qed.

(** A denominator whose absolute value is below 1e-6 is not above 1e-6. *)
Lemma abs_below_epsilon (d : float) :
  PrimFloat.ltb (PrimFloat.abs d) epsilon = true ->
  PrimFloat.ltb epsilon d = false.
Proof.
  rewrite !ltb_spec, abs_spec, epsilon_binary64.
  apply SFltb_abs_not_above.
Qed.

Lemma filter_none {A : Type} (p : A -> bool) (l : list A) :
  (forall x, In x l -> p x = false) -> filter p l = [].
Proof.
  induction l as [| x l IH]; intros H; simpl; [reflexivity |].
  rewrite (H x (or_introl eq_refl)). apply IH.
  intros y Hy. apply H. right. exact Hy.
Qed.

(** C2 as the specification words it does not hold: the pair (1, -5) has a
    denominator of absolute value 5, which is at least 1e-6, and the first
    pass drops it. *)
Lemma epsilon_pass_counterexample :
  filter denominator_abs_ge (combine [1%float] [(-5)%float])
  = [(1%float, (-5)%float)]
  /\ epsilon_pass [1%float] [(-5)%float] = Ok ([], []).
Proof.
  split; reflexivity.
Qed.

(** C2, amended.  On two sequences of one length, the first pass keeps
    exactly the pairs whose denominator is above 1e-6 (a negative
    denominator is dropped, whatever its absolute value), in their order;
    when every denominator has an absolute value below 1e-6 the result of
    [RatioDistribution] is empty. *)
Theorem epsilon_pass_keeps (num denom : list float) :
  List.length num = List.length denom ->
  epsilon_pass num denom
  = Ok (unzip (filter denominator_gt (combine num denom)))
  /\ ((forall d, In d denom ->
                 PrimFloat.ltb (PrimFloat.abs d) epsilon = true) ->
      forall threshold, RatioDistribution num denom threshold = Ok []).
Proof.
  intros H. split; [apply epsilon_pass_filter, H |].
  intros Hd threshold. rewrite (RatioDistribution_filter _ _ _ H).
  rewrite (filter_none denominator_gt); [reflexivity |].
  intros [n d] Hin. unfold denominator_gt; simpl.
  apply abs_below_epsilon, Hd.
  apply in_combine_r in Hin. exact Hin.
Qed.

Lemma epsilon_pass_keeps_witness :
  epsilon_pass [1; 2; 3]%float [4; (-5); 0x1p-30]%float
  = Ok ([1%float], [4%float])
  /\ RatioDistribution [1; 2]%float [0x1p-30; (-0x1p-30)]%float
       default_threshold = Ok [].
Proof.
  split.
  - apply (proj1 (epsilon_pass_keeps [1; 2; 3]%float
                    [4; (-5); 0x1p-30]%float eq_refl)).
  - apply (proj2 (epsilon_pass_keeps [1; 2]%float
                    [0x1p-30; (-0x1p-30)]%float eq_refl)).
    intros d [<- | [<- | []]]; reflexivity.
Defined.

(** C6.  After the first pass, [RatioDistribution] keeps a pair exactly when
    its numerator lies in the open interval (-threshold, threshold), the
    test being made on the numerator and not on the ratio, and gives
    numerator / denominator * 100 for each pair that is kept, in the order
    of the input. *)
Theorem RatioDistribution_threshold (num denom : list float) (threshold : float) :
  List.length num = List.length denom ->
  RatioDistribution num denom threshold
  = (p <- epsilon_pass num denom ;;
     Ok (map percent
           (filter (numerator_inside threshold)
              (combine (fst p) (snd p))))).
Proof.
  intros H. rewrite (RatioDistribution_filter _ _ _ H).
  rewrite (epsilon_pass_filter _ _ H). simpl.
  rewrite combine_fst_snd. reflexivity.
Qed.

Lemma RatioDistribution_threshold_witness :
  RatioDistribution [1; 2000; 3; (-1000); 5]%float [4; 5; 0; 8; 10]%float
    default_threshold
  = Ok [25; 50]%float.
Proof.
  rewrite (RatioDistribution_threshold
             [1; 2000; 3; (-1000); 5]%float [4; 5; 0; 8; 10]%float
             default_threshold eq_refl).
  reflexivity.
Defined.

End RatioFacts.

(** ** Sorting and grouping *)

Module TableFacts.
Import Table.







Section Sorting.
Context {R : Type} (le : R -> R -> bool).

Lemma insert_sorted_perm (x : R) (l : list R) :
  Permutation (insert_sorted le x l) (x :: l).
Proof.
  induction l as [| y l IH]; simpl.
  - reflexivity.
  - destruct (le x y).
    + reflexivity.
    + rewrite IH. constructor.
Qed.

Lemma sort_by_perm (l : list R) : Permutation (sort_by le l) l.
Proof.
  induction l as [| x l IH]; simpl.
  - constructor.
  - rewrite insert_sorted_perm. constructor. exact IH.
Qed.

Hypothesis le_total : forall a b, le a b = false -> le b a = true.
Hypothesis le_trans :
  forall a b c, le a b = true -> le b c = true -> le a c = true.

Lemma insert_sorted_sorted (x : R) (l : list R) :
  StronglySorted (fun a b => le a b = true) l ->
  StronglySorted (fun a b => le a b = true) (insert_sorted le x l).
Proof.
  induction 1 as [| y l Hs IH Hy]; simpl.
  - repeat constructor.
  - destruct (le x y) eqn:E.
    + constructor; [constructor; assumption |].
      constructor; [exact E |].
      eapply Forall_impl; [| exact Hy].
      intros z Hz. exact (le_trans _ _ _ E Hz).
    + constructor; [exact IH |].
      eapply Permutation_Forall.
      * apply Permutation_sym, insert_sorted_perm.
      * constructor; [apply le_total, E | exact Hy].
Qed.

Lemma sort_by_sorted (l : list R) :
  StronglySorted (fun a b => le a b = true) (sort_by le l).
Proof.
  induction l as [| x l IH]; simpl.
  - constructor.
  - apply insert_sorted_sorted, IH.
Qed.

End Sorting.

Section Grouping.
Context {R K : Type} (key : R -> K) (kle : K -> K -> bool).
Context (same : R -> R -> bool).

Hypothesis same_key : forall a b, same a b = true <-> key a = key b.
Hypothesis kle_antisym :
  forall j k, kle j k = true -> kle k j = true -> j = k.

(** Strictly before, on keys and on groups *)
Let before (a b : R) : Prop :=
  kle (key a) (key b) = true /\ key a <> key b.

Let group_before (g1 g2 : list R) : Prop :=
  forall a b, In a g1 -> In b g2 -> before a b.

Let one_key (g : list R) : Prop :=
  forall a b, In a g -> In b g -> key a = key b.

Lemma groupby_concat (l : list R) : List.concat (groupby same l) = l.
Proof.
  induction l as [| x l IH]; simpl; [reflexivity |].
  destruct (groupby same l) as [| [| y g] gs]; simpl in *;
    try (rewrite <- IH; reflexivity).
  destruct (same x y); simpl; rewrite <- IH; reflexivity.
Qed.

Lemma groupby_nonempty (l : list R) :
  Forall (fun g => g <> []) (groupby same l).
Proof.
  induction l as [| x l IH]; simpl; [constructor |].
  destruct (groupby same l) as [| [| y g] gs].
  - repeat constructor. discriminate.
  - constructor; [discriminate | exact IH].
  - destruct (same x y).
    + constructor; [discriminate | exact (Forall_inv_tail IH)].
    + constructor; [discriminate | exact IH].
Qed.

Lemma groupby_one_key (l : list R) : Forall one_key (groupby same l).
Proof.
  induction l as [| x l IH]; simpl; [constructor |].
  assert (Hx : one_key [x]).
  { intros a b [<- | []] [<- | []]. reflexivity. }
  destruct (groupby same l) as [| [| y g] gs].
  - repeat constructor. exact Hx.
  - constructor; [exact Hx | exact IH].
  - destruct (same x y) eqn:E.
    + pose proof (Forall_inv IH) as Hy.
      pose proof (Forall_inv_tail IH) as Hgs.
      constructor; [| exact Hgs].
      apply same_key in E.
      assert (Hk : forall a, In a (x :: y :: g) -> key a = key y).
      { intros a [<- | Ha]; [exact E |].
        apply Hy; [exact Ha | left; reflexivity]. }
      intros a b Ha Hb. rewrite (Hk a Ha), (Hk b Hb). reflexivity.
    + constructor; [exact Hx | exact IH].
Qed.

(** The groups of a sorted list come in the strict order of their keys. *)
Lemma groupby_sorted (l : list R) :
  StronglySorted (fun a b => kle (key a) (key b) = true) l ->
  StronglySorted group_before (groupby same l).
Proof.
  induction 1 as [| x l Hs IH Hx]; simpl; [constructor |].
  pose proof (groupby_concat l) as Hc.
  pose proof (groupby_one_key l) as Hk.
  pose proof (groupby_nonempty l) as Hn.
  destruct (groupby same l) as [| [| y g] gs].
  - repeat constructor.
  - contradiction (Forall_inv Hn). reflexivity.
  - destruct (StronglySorted_inv IH) as [Hgs Hyg].
    pose proof (Forall_inv Hk) as Hy.
    destruct (same x y) eqn:E.
    + apply same_key in E.
      constructor; [exact Hgs |].
      eapply Forall_impl; [| exact Hyg].
      intros g2 Hg2 a b Ha Hb.
      assert (Ea : key a = key y).
      { destruct Ha as [<- | Ha]; [exact E |].
        apply Hy; [exact Ha | left; reflexivity]. }
      destruct (Hg2 y b (or_introl eq_refl) Hb) as [H1 H2].
      unfold before. rewrite Ea. split; assumption.
    + assert (Exy : key x <> key y).
      { intros H. apply same_key in H. congruence. }
      assert (Hxl : forall b, In b l -> kle (key x) (key b) = true).
      { apply Forall_forall. exact Hx. }
      constructor; [exact IH |].
      constructor.
      * intros a b [<- | []] Hb. split.
        -- apply Hxl. rewrite <- Hc.
           apply (in_or_app (y :: g) (List.concat gs)). left. exact Hb.
        -- rewrite (Hy b y Hb (or_introl eq_refl)). exact Exy.
      * apply Forall_forall. intros g2 Hin a b [<- | []] Hb.
        assert (Hbl : In b l).
        { rewrite <- Hc.
          apply (in_or_app (y :: g) (List.concat gs)). right.
          apply in_concat. exists g2. split; assumption. }
        split; [apply Hxl, Hbl |].
        intros Hab.
        assert (Hg2 : group_before (y :: g) g2).
        { revert Hin. apply Forall_forall. exact Hyg. }
        destruct (Hg2 y b (or_introl eq_refl) Hb) as [H1 H2].
        apply H2. apply kle_antisym; [exact H1 |].
        rewrite <- Hab. apply Hxl. rewrite <- Hc. left. reflexivity.
Qed.


End Grouping.

End TableFacts.

(** ** Trade history as text *)

Module HistoryFacts.
Import Dec Table Txns History Reference TableFacts.

Lemma ascii_compare_refl (a : ascii) : Ascii.compare a a = Eq.
Proof. apply N.compare_refl. Qed.

Lemma ascii_compare_lt_trans (a b c : ascii) :
  Ascii.compare a b = Lt -> Ascii.compare b c = Lt -> Ascii.compare a c = Lt.
Proof.
  unfold Ascii.compare. rewrite !N.compare_lt_iff. apply N.lt_trans.
Qed.

Lemma string_compare_refl (s : string) : String.compare s s = Eq.
Proof.
  induction s as [| a s IH]; simpl; [reflexivity |].
  rewrite ascii_compare_refl. exact IH.
Qed.

Lemma string_compare_lt_trans (s1 s2 s3 : string) :
  String.compare s1 s2 = Lt -> String.compare s2 s3 = Lt ->
  String.compare s1 s3 = Lt.
Proof.
  revert s2 s3.
  induction s1 as [| a s1 IH]; intros [| b s2] [| c s3]; simpl;
    try discriminate; try reflexivity.
  destruct (Ascii.compare a b) eqn:Eab; try discriminate;
    destruct (Ascii.compare b c) eqn:Ebc; try discriminate; intros H1 H2.
  - apply Ascii.compare_eq_iff in Eab, Ebc. subst.
    rewrite ascii_compare_refl. exact (IH _ _ H1 H2).
  - apply Ascii.compare_eq_iff in Eab. subst. rewrite Ebc. reflexivity.
  - apply Ascii.compare_eq_iff in Ebc. subst. rewrite Eab. reflexivity.
  - rewrite (ascii_compare_lt_trans _ _ _ Eab Ebc). reflexivity.
Qed.

Lemma string_leb_cases (s1 s2 : string) :
  String.leb s1 s2 = true <-> s1 = s2 \/ String.compare s1 s2 = Lt.
Proof.
  unfold String.leb. destruct (String.compare s1 s2) eqn:E; split.
  - intros _. left. apply String.compare_eq_iff, E.
  - reflexivity.
  - intros _. right. reflexivity.
  - reflexivity.
  - discriminate.
  - intros [-> | H]; [| discriminate].
    rewrite string_compare_refl in E. discriminate.
Qed.

Lemma string_leb_trans (s1 s2 s3 : string) :
  String.leb s1 s2 = true -> String.leb s2 s3 = true ->
  String.leb s1 s3 = true.
Proof.
  rewrite !string_leb_cases.
  intros [-> | H1] [-> | H2]; auto.
  right. exact (string_compare_lt_trans _ _ _ H1 H2).
Qed.

(** The order of the keys is a total order. *)
Lemma key_leb_total (j k : Z * string) :
  key_leb j k = false -> key_leb k j = true.
Proof.
  unfold key_leb. rewrite (Z.compare_antisym (fst j) (fst k)).
  destruct (Z.compare (fst j) (fst k)); simpl; try discriminate;
    try reflexivity.
  intros H. destruct (String.leb_total (snd j) (snd k)); congruence.
Qed.

Lemma key_leb_trans (i j k : Z * string) :
  key_leb i j = true -> key_leb j k = true -> key_leb i k = true.
Proof.
  unfold key_leb.
  destruct (Z.compare_spec (fst i) (fst j)) as [E1 | L1 | G1];
    try discriminate;
    destruct (Z.compare_spec (fst j) (fst k)) as [E2 | L2 | G2];
    try discriminate; intros H1 H2.
  - rewrite E1, E2, Z.compare_refl. exact (string_leb_trans _ _ _ H1 H2).
  - rewrite (proj2 (Z.compare_lt_iff (fst i) (fst k))); [reflexivity | lia].
  - rewrite (proj2 (Z.compare_lt_iff (fst i) (fst k))); [reflexivity | lia].
  - rewrite (proj2 (Z.compare_lt_iff (fst i) (fst k))); [reflexivity | lia].
Qed.

Lemma key_leb_antisym (j k : Z * string) :
  key_leb j k = true -> key_leb k j = true -> j = k.
Proof.
  destruct j as [d1 o1], k as [d2 o2]. unfold key_leb; simpl.
  destruct (Z.compare_spec d1 d2) as [E | L | G]; try discriminate.
  - subst. rewrite Z.compare_refl. intros H1 H2.
    rewrite (String.leb_antisym _ _ H1 H2). reflexivity.
  - rewrite (proj2 (Z.compare_gt_iff d2 d1)) by lia. discriminate.
Qed.

Lemma key_eqb_eq (j k : Z * string) : key_eqb j k = true <-> j = k.
Proof.
  destruct j as [d1 o1], k as [d2 o2]. unfold key_eqb; simpl.
  rewrite andb_true_iff, Z.eqb_eq, String.eqb_eq.
  split; [intros [-> ->]; reflexivity | intros H; injection H; auto].
Qed.

(** Not after, and another key: strictly before. *)
Lemma key_before_leb (j k : Z * string) :
  key_leb j k = true /\ j <> k <-> key_before j k.
Proof.
  destruct j as [d1 o1], k as [d2 o2]. unfold key_leb, key_before; simpl.
  destruct (Z.compare_spec d1 d2) as [E | L | G].
  - subst. rewrite string_leb_cases. unfold String.ltb. split.
    + intros [[-> | H] Hne]; [contradiction Hne; reflexivity |].
      right. rewrite H. split; reflexivity.
    + intros [H | [_ H]]; [lia |].
      destruct (String.compare o1 o2) eqn:E; try discriminate.
      split; [right; reflexivity |].
      intros Heq. injection Heq as ->.
      rewrite string_compare_refl in E. discriminate.
  - split; [intros _; left; exact L |].
    intros _. split; [reflexivity |]. intros H. injection H. lia.
  - split; [intros [H _]; discriminate |].
    intros [H | [H _]]; lia.
Qed.

Lemma key_eq_key (a b : Txn) : key_eq a b = true <-> txn_key a = txn_key b.
Proof. apply (key_eqb_eq (txn_key a) (txn_key b)). Qed.

Lemma sorted_txns (txns : list Txn) :
  StronglySorted (fun a b => key_leb (txn_key a) (txn_key b) = true)
    (sort_by key_le txns).
Proof.
  apply (sort_by_sorted key_le).
  - intros a b. apply (key_leb_total (txn_key a) (txn_key b)).
  - intros a b c. apply (key_leb_trans (txn_key a) (txn_key b) (txn_key c)).
Qed.



Section Rendering.
Variable str_decimal : Q -> string.

(** The rows of the aggregation, one for each group of transactions *)
Lemma aggregate_row_in (gs : list (list Txn)) (r : Group) :
  In r (flat_map (aggregate_row str_decimal) gs) ->
  exists h rest,
    In (h :: rest) gs
    /\ group_key r = txn_key h
    /\ g_cost r = sum (map cost (h :: rest)).
Proof.
  rewrite in_flat_map. intros ([| h rest] & Hg & Hr); [destruct Hr |].
  destruct Hr as [<- | []]. exists h, rest.
  split; [exact Hg |]. split; reflexivity.
Qed.


Lemma aggregate_sorted (gs : list (list Txn)) :
  StronglySorted
    (fun g1 g2 => forall a b, In a g1 -> In b g2 ->
       key_leb (txn_key a) (txn_key b) = true /\ txn_key a <> txn_key b) gs ->
  StronglySorted (fun r1 r2 => key_before (group_key r1) (group_key r2))
    (flat_map (aggregate_row str_decimal) gs).
Proof.
  induction 1 as [| g gs Hs IH Hg]; simpl; [constructor |].
  destruct g as [| h rest]; simpl; [exact IH |].
  constructor; [exact IH |].
  apply Forall_forall. intros r Hr.
  destruct (aggregate_row_in gs r Hr) as (h2 & rest2 & Hin & Hk & _).
  rewrite Forall_forall in Hg.
  rewrite Hk. apply key_before_leb.
  apply (Hg _ Hin h h2); left; reflexivity.
Qed.



Lemma rendered_groups (prv : option Rendered) (groups : list Group) :
  map group (addfieldusingcontext mkRendered Accrue prv groups) = groups.
Proof.
  revert prv. induction groups as [| g groups IH]; intros prv; simpl.
  - reflexivity.
  - rewrite IH. reflexivity.
Qed.



End Rendering.


(** The history of the example: two events, with the accruals 350 and 275 *)
Example rendered_rows_two_events :
  map accr (rendered_rows str_blank two_events) = [350; 275]
  /\ sum (map cost two_events) = 275.
Proof. split; reflexivity. Qed.

End HistoryFacts.

(** ** Trade history as SVG *)

Module SvgFacts.
Import Dec Table Txns Svg Reference DecFacts TableFacts.

(** The guard of [diff_strike]: the divisor is never zero. *)
Lemma diff_strike_nonzero (d : Q) : ~ (if Qeq_bool d 0 then 1 else d) == 0.
Proof.
  destruct (Qeq_bool d 0) eqn:E.
  - discriminate.
  - intros H. apply Qeq_bool_iff in H. congruence.
Qed.

Lemma ticks_ok (min_strike diff_strike width : Q) (strikes : list Q) :
  ~ diff_strike == 0 ->
  exists elems,
    ticks min_strike diff_strike width strikes = Ok elems
    /\ label_ys elems = []
    /\ tick_xs elems
       = map (fun k => to_int ((k - min_strike) / diff_strike * width)) strikes.
Proof.
  intros Hd. induction strikes as [| k strikes (elems & IH & Hl & Ht)].
  - exists []. repeat split.
  - simpl. unfold x_of. rewrite (div_ok _ _ Hd). simpl.
    rewrite IH. simpl. eexists. split; [reflexivity |].
    split; simpl; [exact Hl | rewrite Ht; reflexivity].
Qed.

Lemma labels_ok (min_strike diff_strike width : Q) (records : list Txn) :
  ~ diff_strike == 0 ->
  Forall (fun r => strike r <> None) records ->
  forall y prev_time,
  exists elems,
    labels min_strike diff_strike width records y prev_time = Ok elems
    /\ label_ys elems = band_ys y prev_time (map datetime records)
    /\ tick_xs elems = [].
Proof.
  intros Hd. induction 1 as [| r records Hr _ IH]; intros y prev_time.
  - exists []. repeat split.
  - simpl. destruct (strike r) as [k |]; [| contradiction Hr; reflexivity].
    simpl. unfold x_of. rewrite (div_ok _ _ Hd). simpl.
    set (y' := match prev_time with
               | Some t => if negb (Z.eqb t (datetime r)) then (y + 30)%Z else y
               | None => y
               end).
    destruct (IH (y' + 12)%Z (Some (datetime r))) as (elems & -> & Hl & Ht).
    simpl. eexists. split; [reflexivity |].
    split; [| exact Ht]. simpl. rewrite Hl.
    assert (Hy : y' = match prev_time with
                      | Some p => if Z.eqb p (datetime r) then y else (y + 30)%Z
                      | None => y
                      end).
    { unfold y'. destruct prev_time as [t |]; [| reflexivity].
      destruct (Z.eqb t (datetime r)); reflexivity. }
    rewrite <- Hy. reflexivity.
Qed.

(** A record without strike makes the loop over the records fail. *)
Lemma labels_no_strike (min_strike diff_strike width : Q) (r : Txn)
  (rest : list Txn) (y : Z) (prev_time : option Z) :
  strike r = None ->
  labels min_strike diff_strike width (r :: rest) y prev_time = Raise TypeError.
Proof.
  intros H. simpl. rewrite H. reflexivity.
Qed.

Lemma strike_set_grows (rows : list Txn) (s : list Q) :
  s <> [] ->
  fold_left (fun s r => match strike r with
                        | Some k => set_add s k
                        | None => s
                        end) rows s <> [].
Proof.
  revert s. induction rows as [| r rows IH]; intros s Hs; simpl.
  - exact Hs.
  - apply IH. destruct (strike r) as [k |]; [| exact Hs].
    unfold set_add. destruct (existsb (Qeq_bool k) s); [exact Hs |].
    destruct s; discriminate.
Qed.





Lemma sorted_rows_perm (txns : list Txn) :
  Permutation (sort_by datetime_le (sort_by datetime_strike_le txns)) txns.
Proof.
  rewrite sort_by_perm. apply sort_by_perm.
Qed.



End SvgFacts.

(** * Further properties *)

(** ** Rounding and notional *)

Module NotionalExtras.
Import Dec Notional Reference Extra DecFacts NotionalFacts.

(** [quantize] in the context is symmetric. *)
Lemma quantize_context_opp (x y : Q) (places : nat) :
  y == - x ->
  match quantize_context x places with
  | Ok v => exists v', quantize_context y places = Ok v' /\ v' == - v
  | Raise e => quantize_context y places = Raise e
  end.
Proof.
  intros E. rewrite (quantize_context_eq y (- x) places E).
  unfold quantize_context; cbv zeta.
  rewrite (round_half_even_eq (- x * inject_Z (10 ^ Z.of_nat places))
             (- (x * inject_Z (10 ^ Z.of_nat places)))) by ring.
  rewrite round_half_even_opp, Z.abs_opp.
  destruct (_ <=? _)%Z; [reflexivity |].
  eexists. split; [reflexivity | apply quantize_opp].
Qed.

Lemma amount_opp (x y z : Q) :
  match (notional <- mul3 x y z ;; quantize_context notional Q_places) with
  | Ok v =>
      exists v',
        (notional <- mul3 (- x) y z ;; quantize_context notional Q_places)
        = Ok v' /\ v' == - v
  | Raise e =>
      (notional <- mul3 (- x) y z ;; quantize_context notional Q_places)
      = Raise e
  end.
Proof.
  pose proof (mul3_opp x y z) as H.
  destruct (mul3 x y z) as [n | e]; cbn [bind].
  - destruct H as (n' & -> & En). cbn [bind].
    apply quantize_context_opp, En.
  - rewrite H. reflexivity.
Qed.

(** X1.  The rounding of the notional is symmetric: the row with the
    opposite quantity has the opposite notional, and fails when the row
    fails, with the same error. *)
Theorem GetNotional_opposite (r : Rec) :
  match GetNotional r with
  | Ok v => exists v', GetNotional (opposite r) = Ok v' /\ v' == - v
  | Raise e => GetNotional (opposite r) = Raise e
  end.
Proof.
  unfold GetNotional, opposite.
  cbn [instype putcall quantity multiplier strike price].
  destruct (str_in (instype r) ["EquityOption"; "FutureOption"]%string).
  - destruct (putcall r) as [[| c rest] |]; cbn [bind first_char];
      try reflexivity.
    destruct (Ascii.eqb c "P").
    + apply amount_opp.
    + cbn [bind]. apply quantize_context_opp. reflexivity.
  - destruct (str_in (instype r) ["Equity"; "Future"]%string).
    + apply amount_opp.
    + reflexivity.
Qed.

Lemma whole_cents_fit (x : Q) (n : Z) :
  x * 100 == inject_Z n -> (Z.abs n < 10 ^ prec)%Z ->
  fits_context x /\ cents_fit x.
Proof.
  intros E Hn. split.
  - exists n, (-2)%Z. split; [exact Hn |].
    split; [split; discriminate |]. rewrite <- E.
    change (10 ^ (-2)) with (/ 100). field.
  - unfold cents_fit. rewrite E. apply Qabs_Qle_condition.
    rewrite <- inject_Z_opp, <- !Zle_Qle. lia.
Qed.

(** X2.  An amount in whole cents is not changed by the rounding: when
    quantity * multiplier has at most 28 significant digits and
    quantity * multiplier * price (on Equity and Future) or
    quantity * multiplier * strike (on a put) is a whole number of cents,
    of at most 28 digits, it is the notional. *)
Theorem GetNotional_whole_cents (r : Rec) (n : Z) :
  fits_context (quantity r * multiplier r) ->
  (Z.abs n < 10 ^ prec)%Z ->
  (is_outright_type (instype r) ->
   quantity r * multiplier r * price r * 100 == inject_Z n ->
   exists v, GetNotional r = Ok v /\ v == quantity r * multiplier r * price r)
  /\ (is_option_type (instype r) -> is_put r ->
      quantity r * multiplier r * strike r * 100 == inject_Z n ->
      exists v, GetNotional r = Ok v
                /\ v == quantity r * multiplier r * strike r).
Proof.
  intros F Hn. split.
  - intros H E. destruct (whole_cents_fit _ n E Hn) as [F2 F3].
    eexists. split.
    + rewrite (GetNotional_outright r H).
      apply (amount_exact _ _ _ F F2 F3).
    + apply (quantize_exact _ Q_places n). exact E.
  - intros H [rest Hp] E. destruct (whole_cents_fit _ n E Hn) as [F2 F3].
    eexists. split.
    + rewrite (GetNotional_option r _ _ H Hp).
      apply (amount_exact _ _ _ F F2 F3).
    + apply (quantize_exact _ Q_places n). exact E.
Qed.

Lemma GetNotional_whole_cents_witness :
  (exists v, GetNotional row_equity = Ok v /\ v == 100 * 1 * 50)
  /\ (exists v, GetNotional row_put = Ok v /\ v == -2 * 100 * 45).
Proof.
  split.
  - apply (proj1 (GetNotional_whole_cents row_equity 500000
                    (fits_context_Z _ 100 eq_refl (Qeq_refl _)) eq_refl)).
    + left; reflexivity.
    + reflexivity.
  - apply (proj2 (GetNotional_whole_cents row_put (-900000)
                    (fits_context_Z _ (-200) eq_refl (Qeq_refl _)) eq_refl)).
    + left; reflexivity.
    + exists "UT"%string; reflexivity.
    + reflexivity.
Defined.

End NotionalExtras.

(** ** Chain statistics *)

Module StatsExtras.
Import Dec Table Stats Reference Extra DecFacts StatsFacts NotionalExtras.

Lemma round_half_even_nonneg (x : Q) : 0 <= x -> (0 <= round_half_even x)%Z.
Proof.
  intros H. unfold round_half_even.
  assert (Hf : (0 <= Qfloor x)%Z).
  { change 0%Z with (Qfloor 0). apply Qfloor_resp_le, H. }
  destruct (Qcompare _ _); [destruct (Z.even _) | |]; lia.
Qed.

Lemma quantize_nonneg (x : Q) (places : nat) :
  0 <= x -> 0 <= quantize x places.
Proof.
  intros H. unfold quantize; cbv zeta.
  assert (Hs : (0 < 10 ^ Z.of_nat places)%Z) by (apply Z.pow_pos_nonneg; lia).
  assert (Hr : (0 <= round_half_even (x * inject_Z (10 ^ Z.of_nat places)))%Z).
  { apply round_half_even_nonneg. apply Qmult_le_0_compat; [exact H |].
    change 0 with (inject_Z 0). rewrite <- Zle_Qle. lia. }
  apply Qle_shift_div_l.
  - change 0 with (inject_Z 0). rewrite <- Zlt_Qlt. exact Hs.
  - rewrite Qmult_0_l. change 0 with (inject_Z 0). rewrite <- Zle_Qle.
    exact Hr.
Qed.

Lemma quantize_nonpos (x : Q) (places : nat) :
  x <= 0 -> quantize x places <= 0.
Proof.
  intros H.
  assert (Ho : 0 <= quantize (- x) places) by (apply quantize_nonneg; lra).
  rewrite quantize_opp in Ho. lra.
Qed.

(** The result of a fold that keeps one of its two arguments at each step
    has every property that all the elements have. *)
Lemma fold_choice (P : Q -> Prop) (choose : Q -> Q -> bool) (l : list Q)
  (x : Q) :
  P x -> Forall P l ->
  P (fold_left (fun m v => if choose v m then m else v) l x).
Proof.
  intros Hx Hl. revert x Hx. induction Hl as [| v l Hv _ IH]; intros x Hx.
  - exact Hx.
  - simpl. apply IH. destruct (choose v x); assumption.
Qed.

Lemma guarded_max (a : list Q) :
  Forall (fun v => 0 <= v) a ->
  exists m, (if size a then np_max a else Ok ZERO) = Ok m /\ 0 <= m.
Proof.
  intros H. destruct a as [| x a]; simpl.
  - exists ZERO. split; [reflexivity | discriminate].
  - eexists. split; [reflexivity |].
    apply (fold_choice (fun v => 0 <= v) (fun v m => Qle_bool v m)).
    + exact (Forall_inv H).
    + exact (Forall_inv_tail H).
Qed.

Lemma guarded_min (a : list Q) :
  Forall (fun v => v <= 0) a ->
  exists m, (if size a then np_min a else Ok ZERO) = Ok m /\ m <= 0.
Proof.
  intros H. destruct a as [| x a]; simpl.
  - exists ZERO. split; [reflexivity | discriminate].
  - eexists. split; [reflexivity |].
    apply (fold_choice (fun v => v <= 0) (fun v m => Qle_bool m v)).
    + exact (Forall_inv H).
    + exact (Forall_inv_tail H).
Qed.

Lemma int_truediv_ok (a b : nat) :
  b <> 0%nat -> exists q, int_truediv a b = Ok q.
Proof.
  intros H. unfold int_truediv. rewrite div_ok; [eexists; reflexivity |].
  intros E. unfold Qeq in E; simpl in E. lia.
Qed.

Lemma winners_positive (rows : list ChainPct) :
  Forall (fun v => 0 <= v)
    (values (fun r => chain_pnl (rec r)) (filter is_win rows)).
Proof.
  apply Forall_forall. intros v Hv. apply in_map_iff in Hv.
  destruct Hv as (r & <- & Hr). apply filter_In in Hr.
  destruct Hr as [_ Hr]. apply Qlt_bool_true in Hr. lra.
Qed.

Lemma losers_not_positive (rows : list ChainPct) :
  Forall (fun v => v <= 0)
    (values (fun r => chain_pnl (rec r))
       (filter (fun r => negb (is_win r)) rows)).
Proof.
  apply Forall_forall. intros v Hv. apply in_map_iff in Hv.
  destruct Hv as (r & <- & Hr). apply filter_In in Hr.
  destruct Hr as [_ Hr]. apply negb_true_iff, Qlt_bool_false in Hr. exact Hr.
Qed.

(** X3.  When at least one chain is left after the filter, [stats] does
    not raise ZeroDivisionError: the number of chains that divides the
    number of wins is not zero.  The table that [stats] returns has nine
    rows, of four cells each except the row "Max win", which has three (its
    two empty texts are one). *)
Theorem stats_some_chain (chain_ids : option string)
  (STATE_chains : list Chain) :
  FilterChains chain_ids STATE_chains <> [] ->
  stats chain_ids STATE_chains <> Raise ZeroDivisionError
  /\ (forall rows,
        stats chain_ids STATE_chains = Ok rows ->
        map (@List.length cell) rows = [4; 4; 4; 4; 4; 4; 4; 3; 4]%nat).
Proof.
  intros Hne. split.
  - intros E. destruct (stats_raises _ _ _ E) as [[_ Hnil] | H].
    + contradiction.
    + discriminate H.
  - intros rows H.
    destruct (stats_inv _ _ _ H)
      as (cps & q_pnl & q_init & q_avg & q_win & q_los & q_max_win
          & q_max_los & ratio & max_win & max_los & R).
    cbv zeta in R.
    destruct R as (_ & _ & _ & _ & _ & _ & _ & _ & _ & _ & _ & _ & ->).
    reflexivity.
Qed.

Lemma stats_some_chain_witness :
  exists rows,
    stats (Some "l,x"%string) [chain_winner; chain_loser] = Ok rows
    /\ map (@List.length cell) rows = [4; 4; 4; 4; 4; 4; 4; 3; 4]%nat.
Proof.
  assert (Hne : FilterChains (Some "l,x"%string) [chain_winner; chain_loser]
                <> []) by discriminate.
  eexists. split; [reflexivity |].
  apply (proj2 (stats_some_chain (Some "l,x"%string)
                  [chain_winner; chain_loser] Hne)).
  reflexivity.
Defined.

(** X4.  In the table of [stats] the amount of "Max win" is never negative
    and the amount of "Max loss" is never positive; each is 0 when there is
    no winner, or no loser. *)
Theorem stats_max_signs (chain_ids : option string)
  (STATE_chains : list Chain) (rows : list (list cell)) :
  stats chain_ids STATE_chains = Ok rows ->
  exists max_win max_los,
    nth 7 rows [] = [Text "Max win"; Dollars (Num max_win); Text ""]
    /\ 0 <= max_win
    /\ nth 8 rows []
       = [Text "Max loss"; Dollars (Num max_los); Text ""; Text ""]
    /\ max_los <= 0.
Proof.
  intros H.
  destruct (stats_inv _ _ _ H)
    as (cps & q_pnl & q_init & q_avg & q_win & q_los & q_max_win
        & q_max_los & ratio & mw & ml & R).
  cbv zeta in R.
  destruct R as (_ & _ & _ & _ & _ & _ & _ & _ & Hmw & Hqmw & Hml & Hqml
                 & ->).
  apply Quantize_value in Hqmw, Hqml. subst q_max_win q_max_los.
  destruct (guarded_max _ (winners_positive cps)) as (mw' & Emw & Pmw).
  destruct (guarded_min _ (losers_not_positive cps)) as (ml' & Eml & Pml).
  rewrite Hmw in Emw. injection Emw as <-.
  rewrite Hml in Eml. injection Eml as <-.
  exists (quantize mw 0), (quantize ml 0).
  split; [reflexivity |].
  split; [apply quantize_nonneg, Pmw |].
  split; [reflexivity |].
  apply quantize_nonpos, Pml.
Qed.

Lemma stats_max_signs_witness :
  let rows := match stats (Some "l"%string) [chain_winner; chain_loser] with
              | Ok rows => rows
              | Raise _ => []
              end in
  exists max_win max_los,
    nth 7 rows [] = [Text "Max win"; Dollars (Num max_win); Text ""]
    /\ 0 <= max_win
    /\ nth 8 rows []
       = [Text "Max loss"; Dollars (Num max_los); Text ""; Text ""]
    /\ max_los <= 0.
Proof.
  apply (stats_max_signs (Some "l"%string) [chain_winner; chain_loser]).
  reflexivity.
Defined.

End StatsExtras.

(** ** The filter of the chains, and the ratio distribution as it is called *)

Module FilterExtras.
Import Table Stats Ratio Charts Reference Extra RatioFacts.

Lemma split_on_no_sep (sep : ascii) (s : string) :
  Forall (fun piece => contains sep piece = false) (split_on sep s).
Proof.
  induction s as [| c s IH]; simpl.
  - repeat constructor.
  - destruct (Ascii.eqb c sep) eqn:E.
    + constructor; [reflexivity | exact IH].
    + destruct (split_on sep s) as [| w ws].
      * repeat constructor. simpl. rewrite E. reflexivity.
      * constructor; [| exact (Forall_inv_tail IH)].
        simpl. rewrite E. exact (Forall_inv IH).
Qed.

Lemma filter_idempotent {A : Type} (p : A -> bool) (l : list A) :
  filter p (filter p l) = filter p l.
Proof.
  induction l as [| x l IH]; simpl; [reflexivity |].
  destruct (p x) eqn:E; simpl; [rewrite E, IH |]; auto.
Qed.

(** X5.  [FilterChains] keeps rows of the table, filtering twice is
    filtering once, and with a parameter that is not empty it never selects
    a chain whose id contains a comma. *)
Theorem FilterChains_selection (chain_ids : option string)
  (table : list Chain) :
  (forall r, In r (FilterChains chain_ids table) -> In r table)
  /\ FilterChains chain_ids (FilterChains chain_ids table)
     = FilterChains chain_ids table
  /\ (forall ids r, chain_ids = Some ids -> ids <> EmptyString ->
                    In r (FilterChains chain_ids table) ->
                    contains "," (chain_id r) = false).
Proof.
  destruct chain_ids as [[| c ids] |].
  - split; [auto |]. split; [reflexivity |].
    intros ids r H Hne. injection H as <-. contradiction Hne. reflexivity.
  - unfold FilterChains. split; [| split].
    + intros r Hr. apply filter_In in Hr. apply Hr.
    + apply filter_idempotent.
    + intros ids' r _ _ Hr. apply filter_In in Hr. destruct Hr as [_ Hr].
      apply existsb_exists in Hr. destruct Hr as (piece & Hin & Heq).
      apply String.eqb_eq in Heq. rewrite Heq.
      pose proof (split_on_no_sep "," (String c ids)) as Hall.
      rewrite Forall_forall in Hall. exact (Hall piece Hin).
  - split; [auto |]. split; [reflexivity |]. discriminate.
Qed.

Lemma FilterChains_selection_witness :
  contains "," (chain_id chain_loser) = false.
Proof.
  apply (proj2 (proj2 (FilterChains_selection (Some "l,w,x"%string)
                         [chain_winner; chain_loser]))
           "l,w,x"%string chain_loser eq_refl).
  - discriminate.
  - right; left; reflexivity.
Defined.

(** X6.  On sequences of different lengths [RatioDistribution] raises
    IndexError: the mask of the denominators does not fit the
    numerators. *)
Theorem RatioDistribution_mismatch (num denom : list float)
  (threshold : float) :
  List.length num <> List.length denom ->
  RatioDistribution num denom threshold = Raise IndexError.
Proof.
  intros H. unfold RatioDistribution.
  rewrite boolean_index_mismatch; [reflexivity |].
  rewrite length_map. exact H.
Qed.

Lemma RatioDistribution_mismatch_witness :
  RatioDistribution [1; 2]%float [4]%float default_threshold
  = Raise IndexError.
Proof.
  apply (RatioDistribution_mismatch [1; 2]%float [4]%float default_threshold).
  discriminate.
Defined.

Lemma combine_map {A B C : Type} (f : A -> B) (g : A -> C) (l : list A) :
  combine (map f l) (map g l) = map (fun x => (f x, g x)) l.
Proof.
  induction l as [| x l IH]; simpl; [| rewrite IH]; reflexivity.
Qed.

Lemma filter_length_le {A : Type} (p : A -> bool) (l : list A) :
  (List.length (filter p l) <= List.length l)%nat.
Proof.
  induction l as [| x l IH]; simpl; [lia |].
  destruct (p x); simpl; lia.
Qed.

(** X7.  [stats_pnlpctinit] always gets its data: the two arrays come from
    one table, so [RatioDistribution] never raises.  There is at most one
    value for each chain, and each value is P/L / initial credits * 100 of a
    chain whose initial credits are above 1e-6 and whose P/L is inside
    (-1000, 1000): a chain with zero or negative initial credits gives no
    value. *)
Theorem stats_pnlpctinit_data (astype_float : Q -> float)
  (chain_ids : option string) (STATE_chains : list Chain) :
  exists data,
    stats_pnlpctinit astype_float chain_ids STATE_chains = Ok data
    /\ (List.length data
        <= List.length (FilterChains chain_ids STATE_chains))%nat
    /\ (forall x, In x data ->
          exists c,
            In c (FilterChains chain_ids STATE_chains)
            /\ PrimFloat.ltb epsilon (astype_float (init c)) = true
            /\ PrimFloat.ltb (astype_float (chain_pnl c)) default_threshold
               = true
            /\ PrimFloat.ltb (PrimFloat.opp default_threshold)
                 (astype_float (chain_pnl c)) = true
            /\ x = percent (astype_float (chain_pnl c),
                            astype_float (init c))).
Proof.
  unfold stats_pnlpctinit, values.
  rewrite RatioDistribution_filter by (rewrite !length_map; reflexivity).
  eexists. split; [reflexivity |].
  rewrite !map_map, combine_map. split.
  - rewrite length_map.
    etransitivity; [apply filter_length_le |].
    etransitivity; [apply filter_length_le |].
    rewrite length_map. apply le_n.
  - intros x Hx. apply in_map_iff in Hx. destruct Hx as ([n d] & <- & Hp).
    apply filter_In in Hp. destruct Hp as [Hp Hin].
    apply filter_In in Hp. destruct Hp as [Hp Hgt].
    apply in_map_iff in Hp. destruct Hp as (c & Hc & Hcin).
    injection Hc as <- <-.
    unfold numerator_inside in Hin. apply andb_true_iff in Hin.
    exists c. repeat split; try assumption; apply Hin.
Qed.

End FilterExtras.

(** ** Risk *)

Module RiskFacts.
Import Dec Table Notional Risk Reference Extra DecFacts TableFacts HistoryFacts.
Import NotionalFacts.











(** [addfield]: the rows of the result, or the error of the first row on
    which the function raises *)
Lemma addfield_ok {R R' : Type} (f : R -> result R') (l : list R) :
  Forall (fun r => exists r', f r = Ok r') l ->
  exists l', addfield f l = Ok l' /\ Forall2 (fun r r' => f r = Ok r') l l'.
Proof.
  induction 1 as [| r l (r' & Hr) _ (l' & IH & Hl)]; simpl.
  - exists []. split; [reflexivity | constructor].
  - rewrite Hr, IH. simpl. eexists. split; [reflexivity |].
    constructor; assumption.
Qed.

Lemma addfield_raises {R R' : Type} (f : R -> result R') (pre post : list R)
  (r : R) (e : exn) :
  Forall (fun r => exists r', f r = Ok r') pre -> f r = Raise e ->
  addfield f (pre ++ r :: post) = Raise e.
Proof.
  intros Hpre Hr. induction Hpre as [| x pre (x' & Hx) _ IH]; simpl.
  - rewrite Hr. reflexivity.
  - rewrite Hx, IH. reflexivity.
Qed.

Lemma addfield_cases {R R' : Type} (f : R -> result R') (l : list R) :
  (exists l', addfield f l = Ok l' /\ Forall2 (fun r r' => f r = Ok r') l l')
  \/ (exists pre r post e,
        l = pre ++ r :: post
        /\ Forall (fun r => exists r', f r = Ok r') pre
        /\ f r = Raise e
        /\ addfield f l = Raise e).
Proof.
  induction l as [| x l IH].
  - left. exists []. split; [reflexivity | constructor].
  - destruct (f x) as [x' | e] eqn:Hx.
    + destruct IH as [(l' & Hl & H2) | (pre & r & post & e & -> & Hpre & Hr & He)].
      * left. exists (x' :: l'). simpl. rewrite Hx, Hl.
        split; [reflexivity | constructor; assumption].
      * right. exists (x :: pre), r, post, e.
        split; [reflexivity |].
        split; [constructor; [exists x'; exact Hx | exact Hpre] |].
        split; [exact Hr |].
        simpl. rewrite Hx, He. reflexivity.
    + right. exists [], x, l, e.
      split; [reflexivity |]. split; [constructor |].
      split; [exact Hx |]. simpl. rewrite Hx. reflexivity.
Qed.

Lemma with_notional_ok (p : Position) (v : Valued) :
  with_notional p = Ok v ->
  position v = p /\ v_cost v = replace_cost p /\ v_notional v = notional_of p.
Proof.
  unfold with_notional, notional_of.
  destruct (GetNotional (fields p)) as [n | e]; simpl; [| discriminate].
  intros H. injection H as <-. repeat split.
Qed.

Lemma with_notional_raises (p : Position) (e : exn) :
  with_notional p = Raise e <-> GetNotional (fields p) = Raise e.
Proof.
  unfold with_notional.
  destruct (GetNotional (fields p)) as [n | e']; simpl; split;
    intros H; try discriminate; injection H as ->; reflexivity.
Qed.

Lemma valued_fields (positions : list Position) (valued : list Valued) :
  Forall2 (fun p v => with_notional p = Ok v) positions valued ->
  map position valued = positions
  /\ map v_cost valued = map replace_cost positions
  /\ map v_notional valued = map notional_of positions.
Proof.
  induction 1 as [| p v positions valued H _ (I1 & I2 & I3)]; simpl.
  - repeat split.
  - destruct (with_notional_ok p v H) as (-> & -> & ->).
    rewrite I1, I2, I3. repeat split.
Qed.






Lemma aggregate_nonempty (valued : list Valued) :
  valued <> [] -> aggregate valued <> [].
Proof.
  intros Hne Ha. unfold aggregate in Ha.
  pose proof (groupby_concat key_eq (sort_by key_le valued)) as Hc.
  pose proof (groupby_nonempty key_eq (sort_by key_le valued)) as Hn.
  destruct (groupby key_eq (sort_by key_le valued)) as [| [| h rest] gs].
  - simpl in Hc. symmetry in Hc.
    pose proof (sort_by_perm key_le valued) as Hp. rewrite Hc in Hp.
    apply Permutation_nil in Hp. contradiction.
  - contradiction (Forall_inv Hn). reflexivity.
  - discriminate Ha.
Qed.

(** The value of [risk] on a table where every notional is defined *)
Lemma risk_value (positions : list Position) :
  positions <> [] ->
  Forall (fun p => exists v, GetNotional (fields p) = Ok v) positions ->
  exists valued,
    map position valued = positions
    /\ map v_cost valued = map replace_cost positions
    /\ map v_notional valued = map notional_of positions
    /\ risk positions
       = Ok (mkPage (aggregate valued)
               (Qabs (sum (map r_notional (aggregate valued))))
               1000000
               (Qabs (sum (map r_notional (aggregate valued))) / 1000000)).
Proof.
  intros Hne Hall.
  destruct (addfield_ok with_notional positions) as (valued & Ha & H2).
  { eapply Forall_impl; [| exact Hall]. intros p (v & Hv).
    unfold with_notional. rewrite Hv. eexists. reflexivity. }
  destruct (valued_fields _ _ H2) as (F1 & F2 & F3).
  exists valued. repeat (split; [assumption |]).
  unfold risk. rewrite Ha. cbn [bind].
  assert (Hv : valued <> []).
  { intros ->. apply Hne. rewrite <- F1. reflexivity. }
  pose proof (aggregate_nonempty valued Hv) as Hr.
  destruct (aggregate valued) as [| r rows] eqn:E; [contradiction Hr; reflexivity |].
  reflexivity.
Qed.

Lemma GetNotional_errors (r : Rec) (e : exn) :
  GetNotional r = Raise e ->
  e = TypeError \/ e = IndexError \/ e = Overflow \/ e = InvalidOperation
  \/ e = ValueError ("Invalid instrument type: " ++ instype r)%string.
Proof.
  unfold GetNotional.
  destruct (str_in (instype r) ["EquityOption"; "FutureOption"]%string).
  - destruct (putcall r) as [[| c rest] |]; cbn [bind first_char].
    + intros H. injection H as <-. auto.
    + destruct (Ascii.eqb c "P").
      * intros H. destruct (amount_raises _ _ _ _ H); auto.
      * cbn [bind]. rewrite quantize_context_zero. discriminate.
    + intros H. injection H as <-. auto.
  - destruct (str_in (instype r) ["Equity"; "Future"]%string).
    + intros H. destruct (amount_raises _ _ _ _ H); auto.
    + cbn [bind]. intros H. injection H as <-. auto 6.
Qed.

Ltac notional_defined :=
  repeat first [ apply Forall_nil
               | apply Forall_cons; [eexists; vm_compute; reflexivity |] ].

(** X8.  [risk] stops at the first position, in the order of the table, on
    which [GetNotional] fails, and raises its error: no row is left out
    silently. *)
Theorem risk_first_error (pre post : list Position) (p : Position) (e : exn) :
  Forall (fun q => exists v, GetNotional (fields q) = Ok v) pre ->
  GetNotional (fields p) = Raise e ->
  risk (pre ++ p :: post) = Raise e.
Proof.
  intros Hpre Hp. unfold risk.
  rewrite (addfield_raises with_notional pre post p e); [reflexivity | |].
  - eapply Forall_impl; [| exact Hpre]. intros q (v & Hv).
    unfold with_notional. rewrite Hv. eexists. reflexivity.
  - apply with_notional_raises, Hp.
Qed.

Lemma risk_first_error_witness :
  risk ([position_stock] ++ position_bond :: [position_put])
  = Raise (ValueError "Invalid instrument type: Bond").
Proof.
  apply (risk_first_error [position_stock] [position_put] position_bond).
  - notional_defined.
  - vm_compute. reflexivity.
Defined.

(** X9.  [risk] raises the error of [first], called on an empty iterable,
    exactly when the table of positions is empty. *)
Theorem risk_empty_table (positions : list Position) :
  risk positions
  = Raise (ValueError "first() was called on an empty iterable, and no default value was provided.")
  <-> positions = [].
Proof.
  split; [| intros ->; reflexivity].
  intros H. destruct positions as [| p0 ps]; [reflexivity | exfalso].
  destruct (addfield_cases with_notional (p0 :: ps))
    as [(valued & Ha & H2) | (pre & r & post & e & Hl & Hpre & Hr & He)].
  - destruct (risk_value (p0 :: ps)) as (valued' & _ & _ & _ & Hv).
    + discriminate.
    + clear - H2. induction H2 as [| p v l l' Hp _ IH]; constructor; [| exact IH].
      unfold with_notional in Hp.
      destruct (GetNotional (fields p)) as [n |]; [| discriminate].
      exists n. reflexivity.
    + rewrite Hv in H. discriminate.
  - unfold risk in H. rewrite He in H. cbn [bind] in H.
    apply with_notional_raises, GetNotional_errors in Hr.
    injection H as ->.
    destruct Hr as [Hr | [Hr | [Hr | [Hr | Hr]]]]; discriminate.
Qed.





End RiskFacts.

(** ** Groups of a sorted table, up to a key *)

Module TableExtras.
Import Table TableFacts.

Section Prefix.
Context {R K : Type} (key : R -> K) (kle : K -> K -> bool).

Hypothesis kle_total : forall j k, kle j k = false -> kle k j = true.
Hypothesis kle_antisym :
  forall j k, kle j k = true -> kle k j = true -> j = k.





End Prefix.

End TableExtras.

(** ** Trade history as text *)

Module HistoryExtras.
Import Dec Table Txns History Reference Extra TableFacts HistoryFacts.
Import TableExtras.

Section Rendering.
Variable str_decimal : Q -> string.



Lemma key_before_irrefl (j : Z * string) : ~ key_before j j.
Proof.
  intros [H | [_ H]]; [lia |].
  unfold String.ltb in H. rewrite string_compare_refl in H. discriminate H.
Qed.

Lemma sorted_map {A B : Type} (f : A -> B) (before : B -> B -> Prop)
  (l : list A) :
  StronglySorted (fun a b => before (f a) (f b)) l ->
  StronglySorted before (map f l).
Proof.
  induction 1 as [| a l Hs IH Ha]; simpl; constructor; [exact IH |].
  apply Forall_forall. intros y Hy. apply in_map_iff in Hy.
  destruct Hy as (x & <- & Hx). rewrite Forall_forall in Ha. exact (Ha x Hx).
Qed.

Lemma sorted_nodup {A : Type} (before : A -> A -> Prop) (l : list A) :
  (forall a, ~ before a a) -> StronglySorted before l -> NoDup l.
Proof.
  intros Hirr. induction 1 as [| a l Hs IH Ha]; constructor; [| exact IH].
  intros Hin. rewrite Forall_forall in Ha. exact (Hirr a (Ha a Hin)).
Qed.

(** X13.  The history has exactly one row for each execution event: the
    keys (datetime, order_id) of its rows are those of the transactions,
    they come in strictly increasing order, so that no two rows have the
    same key, and there are no more rows than there are transactions. *)
Theorem RenderHistoryText_events (txns : list Txn) :
  let keys := map (fun r => group_key (group r))
                (rendered_rows str_decimal txns) in
  (forall k, In k keys <-> In k (map txn_key txns))
  /\ StronglySorted key_before keys
  /\ NoDup keys
  /\ (List.length (rendered_rows str_decimal txns) <= List.length txns)%nat.
Proof.
  cbv zeta.
  assert (Hsorted : StronglySorted key_before
                      (map (fun r => group_key (group r))
                         (rendered_rows str_decimal txns))).
  { assert (Hg : map group (rendered_rows str_decimal txns)
                 = aggregate str_decimal txns) by apply rendered_groups.
    rewrite <- (map_map group group_key), Hg.
    apply sorted_map. unfold aggregate. apply aggregate_sorted.
    apply (groupby_sorted txn_key key_leb key_eq key_eq_key key_leb_antisym).
    apply sorted_txns. }
  pose proof (sorted_nodup key_before _ key_before_irrefl Hsorted) as Hnodup.
  cut ((forall k, In k (map (fun r => group_key (group r))
                          (rendered_rows str_decimal txns))
                  <-> In k (map txn_key txns))
       /\ (List.length (rendered_rows str_decimal txns)
           <= List.length txns)%nat).
  { intros [H1 H2]. repeat split; try assumption; apply H1. }
  pose proof (groupby_concat key_eq (sort_by key_le txns)) as Hc.
  pose proof (groupby_nonempty key_eq (sort_by key_le txns)) as Hn.
  pose proof (groupby_one_key txn_key key_eq key_eq_key
                (sort_by key_le txns)) as Hone.
  pose proof (sort_by_perm key_le txns) as Hp.
  assert (Hg : map group (rendered_rows str_decimal txns)
               = aggregate str_decimal txns) by apply rendered_groups.
  split.
  - intros k. rewrite <- (map_map group group_key), Hg. unfold aggregate.
    rewrite !in_map_iff. split.
    + intros (row & <- & Hrow).
      destruct (aggregate_row_in str_decimal _ row Hrow)
        as (h & rest & Hin & Hk & _).
      exists h. split; [symmetry; exact Hk |].
      apply (Permutation_in _ Hp). rewrite <- Hc.
      apply in_concat. exists (h :: rest). split; [exact Hin | left; reflexivity].
    + intros (t & <- & Ht).
      apply (Permutation_in _ (Permutation_sym Hp)) in Ht.
      rewrite <- Hc in Ht. apply in_concat in Ht.
      destruct Ht as (g & Hg' & Ht).
      rewrite Forall_forall in Hone.
      destruct g as [| h rest]; [destruct Ht |].
      eexists. split.
      * shelve.
      * apply in_flat_map. exists (h :: rest). split; [exact Hg' |].
        left. reflexivity.
      Unshelve.
      cbn [group_key g_datetime g_order_id].
      apply (Hone (h :: rest) Hg' h t (or_introl eq_refl) Ht).
  - rewrite <- (length_map group), Hg. unfold aggregate.
    rewrite <- (Permutation_length Hp).
    revert Hc Hn. generalize (groupby key_eq (sort_by key_le txns)).
    intros gs <- Hn.
    induction Hn as [| [| h rest] gs Hne _ IH].
    + apply le_n.
    + contradiction Hne. reflexivity.
    + change (List.concat ((h :: rest) :: gs))
        with ((h :: rest) ++ List.concat gs).
      rewrite length_app. simpl. lia.
Qed.

Lemma filter_drop {A : Type} (p : A -> bool) (pre post : list A) (x : A) :
  p x = false -> filter p (pre ++ x :: post) = filter p (pre ++ post).
Proof.
  intros H. rewrite !filter_app. simpl. rewrite H. reflexivity.
Qed.

(** X14.  A leg whose [putcall] is present but starts with neither "P" nor
    "C" is shown in none of the three texts of its row. *)
Theorem leg_not_shown (pre post : list Txn) (t : Txn) :
  other_leg t ->
  RenderStatic str_decimal (pre ++ t :: post)
  = RenderStatic str_decimal (pre ++ post)
  /\ RenderPuts str_decimal (pre ++ t :: post)
     = RenderPuts str_decimal (pre ++ post)
  /\ RenderCalls str_decimal (pre ++ t :: post)
     = RenderCalls str_decimal (pre ++ post).
Proof.
  intros (s & Hs & HP & HC).
  unfold RenderStatic, RenderPuts, RenderCalls.
  rewrite !(filter_drop _ pre post t); [repeat split | | |].
  - rewrite Hs. exact HC.
  - rewrite Hs. exact HP.
  - rewrite Hs. reflexivity.
Qed.

End Rendering.


Lemma leg_not_shown_witness :
  let t := mkTxn 5 "o1" "BUY" "OPENING" 1 "SPY" 2 (-10) "x"
             (Some "put"%string) (Some 100) in
  RenderStatic str_blank (one_event ++ t :: [])
  = RenderStatic str_blank (one_event ++ [])
  /\ RenderPuts str_blank (one_event ++ t :: [])
     = RenderPuts str_blank (one_event ++ [])
  /\ RenderCalls str_blank (one_event ++ t :: [])
     = RenderCalls str_blank (one_event ++ []).
Proof.
  apply (leg_not_shown str_blank one_event []).
  exists "put"%string. repeat split.
Defined.

End HistoryExtras.

(** ** Trade history as SVG *)

Module SvgExtras.
Import Dec Table Txns Svg Reference Extra DecFacts TableFacts SvgFacts.
Import StatsFacts.

Lemma strike_set_some (rows : list Txn) :
  Exists (fun r => strike r <> None) rows -> strike_set rows <> [].
Proof.
  unfold strike_set. induction 1 as [r rows Hr | r rows _ IH]; simpl.
  - destruct (strike r) as [k |]; [| contradiction Hr; reflexivity].
    apply strike_set_grows. discriminate.
  - destruct (strike r) as [k |]; [| exact IH].
    apply strike_set_grows. discriminate.
Qed.

Lemma strike_set_none (rows : list Txn) :
  Forall (fun r => strike r = None) rows -> strike_set rows = [].
Proof.
  unfold strike_set. induction 1 as [| r rows Hr _ IH]; simpl.
  - reflexivity.
  - rewrite Hr. exact IH.
Qed.

Lemma labels_raises (min_strike diff_strike width : Q) (records : list Txn) :
  ~ diff_strike == 0 ->
  Exists (fun r => strike r = None) records ->
  forall y prev_time,
    labels min_strike diff_strike width records y prev_time = Raise TypeError.
Proof.
  intros Hd. induction 1 as [r records Hr | r records _ IH];
    intros y prev_time.
  - apply labels_no_strike, Hr.
  - simpl. destruct (strike r) as [k |]; [| reflexivity].
    simpl. unfold x_of. rewrite (div_ok _ _ Hd). simpl.
    rewrite IH. reflexivity.
Qed.

Lemma sorted_exists (P : Txn -> Prop) (txns : list Txn) :
  Exists P txns ->
  Exists P (sort_by datetime_le (sort_by datetime_strike_le txns))
  /\ Exists P (sort_by datetime_strike_le txns).
Proof.
  intros H. apply Exists_exists in H. destruct H as (t & Ht & HP).
  split; apply Exists_exists; exists t; (split; [| exact HP]).
  - apply (Permutation_in _ (Permutation_sym (sorted_rows_perm txns)) Ht).
  - apply (Permutation_in _
             (Permutation_sym (sort_by_perm datetime_strike_le txns)) Ht).
Qed.

(** X15.  [RenderHistorySVG] gives the text "No transactions." exactly when
    no transaction has a strike; an empty table is one case. *)
Theorem RenderHistorySVG_message (txns : list Txn) :
  RenderHistorySVG txns = Ok (Message "No transactions.")
  <-> Forall (fun r => strike r = None) txns.
Proof.
  split.
  - intros H. apply Forall_forall. intros t Ht.
    destruct (strike t) as [k |] eqn:E; [exfalso | reflexivity].
    assert (Hex : Exists (fun r => strike r <> None) txns).
    { apply Exists_exists. exists t. split; [exact Ht |]. congruence. }
    pose proof (strike_set_some _ (proj2 (sorted_exists _ txns Hex))) as Hset.
    unfold RenderHistorySVG in H.
    destruct (strike_set (sort_by datetime_strike_le txns)) as [| k0 ks];
      [contradiction Hset; reflexivity |].
    cbv zeta in H.
    destruct (ticks _ _ _ _) as [scale |]; [| discriminate H].
    cbn [bind] in H.
    destruct (labels _ _ _ _ _ _) as [texts |]; discriminate H.
  - intros H. unfold RenderHistorySVG.
    rewrite strike_set_none; [reflexivity |].
    apply (Permutation_Forall
             (Permutation_sym (sort_by_perm datetime_strike_le txns))).
    exact H.
Qed.

Lemma RenderHistorySVG_mixed_raises (txns : list Txn) :
  Exists (fun r => strike r <> None) txns ->
  Exists (fun r => strike r = None) txns ->
  RenderHistorySVG txns = Raise TypeError.
Proof.
  intros Hsome Hnone.
  pose proof (strike_set_some _ (proj2 (sorted_exists _ txns Hsome))) as Hset.
  unfold RenderHistorySVG.
  destruct (strike_set (sort_by datetime_strike_le txns)) as [| k0 ks] eqn:Es;
    [contradiction Hset; reflexivity |].
  cbv zeta.
  set (min_strike := min_of k0 (k0 :: ks)).
  set (diff := if Qeq_bool (max_of k0 (k0 :: ks) - min_strike) 0 then 1
               else max_of k0 (k0 :: ks) - min_strike).
  assert (Hd : ~ diff == 0) by apply diff_strike_nonzero.
  destruct (ticks_ok min_strike diff 1000 (sort_by Qle_bool (k0 :: ks)) Hd)
    as (scale & -> & _).
  cbn [bind].
  rewrite (labels_raises min_strike diff 1000 _ Hd
             (proj1 (sorted_exists _ txns Hnone))).
  reflexivity.
Qed.

Lemma RenderHistorySVG_all_strikes (txns : list Txn) :
  txns <> [] -> Forall (fun r => strike r <> None) txns ->
  exists elems, RenderHistorySVG txns = Ok (Drawing elems).
Proof.
  intros Hne Hall.
  assert (Hex : Exists (fun r => strike r <> None) txns).
  { destruct txns as [| t txns]; [contradiction Hne; reflexivity |].
    apply Exists_cons_hd. exact (Forall_inv Hall). }
  pose proof (strike_set_some _ (proj2 (sorted_exists _ txns Hex))) as Hset.
  unfold RenderHistorySVG.
  destruct (strike_set (sort_by datetime_strike_le txns)) as [| k0 ks] eqn:Es;
    [contradiction Hset; reflexivity |].
  cbv zeta.
  set (min_strike := min_of k0 (k0 :: ks)).
  set (diff := if Qeq_bool (max_of k0 (k0 :: ks) - min_strike) 0 then 1
               else max_of k0 (k0 :: ks) - min_strike).
  assert (Hd : ~ diff == 0) by apply diff_strike_nonzero.
  destruct (ticks_ok min_strike diff 1000 (sort_by Qle_bool (k0 :: ks)) Hd)
    as (scale & -> & _).
  destruct (labels_ok min_strike diff 1000
              (sort_by datetime_le (sort_by datetime_strike_le txns)) Hd)
    with (y := 20%Z) (prev_time := @None Z) as (texts & -> & _).
  { apply (Permutation_Forall (Permutation_sym (sorted_rows_perm txns))).
    exact Hall. }
  eexists. reflexivity.
Qed.

Lemma strikes_cases (txns : list Txn) :
  (Forall (fun r => strike r = None) txns
   \/ Exists (fun r => strike r <> None) txns)
  /\ (Forall (fun r => strike r <> None) txns
      \/ Exists (fun r => strike r = None) txns).
Proof.
  split.
  - induction txns as [| t txns IH]; [left; constructor |].
    destruct (strike t) as [k |] eqn:E.
    + right. apply Exists_cons_hd. congruence.
    + destruct IH as [IH | IH].
      * left. constructor; assumption.
      * right. apply Exists_cons_tl, IH.
  - induction txns as [| t txns IH]; [left; constructor |].
    destruct (strike t) as [k |] eqn:E.
    + destruct IH as [IH | IH].
      * left. constructor; [congruence | assumption].
      * right. apply Exists_cons_tl, IH.
    + right. apply Exists_cons_hd. exact E.
Qed.

(** X16.  [RenderHistorySVG] raises no other error than TypeError, and it
    raises it exactly on a chain that has a transaction with a strike and
    one without (an option beside a stock): the division by the range of
    the strikes never fails. *)
Theorem RenderHistorySVG_mixed (txns : list Txn) (e : exn) :
  RenderHistorySVG txns = Raise e
  <-> e = TypeError
      /\ Exists (fun r => strike r <> None) txns
      /\ Exists (fun r => strike r = None) txns.
Proof.
  split.
  - intros H. destruct (strikes_cases txns) as [[Hn | Hs] [Ha | Hm]].
    + apply RenderHistorySVG_message in Hn. rewrite Hn in H. discriminate.
    + apply RenderHistorySVG_message in Hn. rewrite Hn in H. discriminate.
    + destruct (RenderHistorySVG_all_strikes txns) as (elems & He).
      * intros ->. inversion Hs.
      * exact Ha.
      * rewrite He in H. discriminate.
    + rewrite (RenderHistorySVG_mixed_raises txns Hs Hm) in H.
      injection H as <-. repeat split; assumption.
  - intros (-> & Hs & Hm). apply RenderHistorySVG_mixed_raises; assumption.
Qed.

Lemma RenderHistorySVG_mixed_witness :
  RenderHistorySVG stock_and_put = Raise TypeError.
Proof.
  apply (proj2 (RenderHistorySVG_mixed stock_and_put TypeError)).
  split; [reflexivity |]. split.
  - apply Exists_cons_tl, Exists_cons_hd. discriminate.
  - apply Exists_cons_hd. reflexivity.
Defined.

(** [int] of a number that is not negative is its integer part. *)
Lemma to_int_floor (v : Q) : 0 <= v -> to_int v = Qfloor v.
Proof.
  intros H. destruct v as [n d]. unfold to_int, Qfloor; simpl.
  apply Z.quot_div_nonneg; [| lia].
  unfold Qle in H; simpl in H. lia.
Qed.

Lemma to_int_bounds (v : Q) (n : Z) :
  0 <= v -> v <= inject_Z n -> (0 <= to_int v <= n)%Z.
Proof.
  intros H0 Hn. rewrite (to_int_floor v H0). split.
  - change 0%Z with (Qfloor 0). apply Qfloor_resp_le, H0.
  - rewrite <- (Qfloor_Z n). apply Qfloor_resp_le, Hn.
Qed.

Lemma to_int_zero (v : Q) : v == 0 -> to_int v = 0%Z.
Proof.
  intros H. rewrite to_int_floor by (rewrite H; discriminate).
  rewrite H. reflexivity.
Qed.

Lemma min_of_le (s : list Q) (x : Q) :
  min_of x s <= x /\ Forall (fun v => min_of x s <= v) s.
Proof.
  unfold min_of. revert x. induction s as [| v s IH]; intros x; simpl.
  - split; [apply Qle_refl | constructor].
  - destruct (IH (if Qlt_bool v x then v else x)) as [H1 H2].
    destruct (Qlt_bool v x) eqn:E.
    + apply Qlt_bool_true in E.
      split; [lra | constructor; assumption].
    + apply Qlt_bool_false in E.
      split; [exact H1 | constructor; [lra | exact H2]].
Qed.

Lemma max_of_ge (s : list Q) (x : Q) :
  x <= max_of x s /\ Forall (fun v => v <= max_of x s) s.
Proof.
  unfold max_of. revert x. induction s as [| v s IH]; intros x; simpl.
  - split; [apply Qle_refl | constructor].
  - destruct (IH (if Qlt_bool x v then v else x)) as [H1 H2].
    destruct (Qlt_bool x v) eqn:E.
    + apply Qlt_bool_true in E.
      split; [lra | constructor; assumption].
    + apply Qlt_bool_false in E.
      split; [exact H1 | constructor; [lra | exact H2]].
Qed.

(** Every strike of a row is, as a value, in the set of the strikes. *)
Lemma set_add_covers (s : list Q) (k : Q) :
  (exists k', In k' (set_add s k) /\ k' == k)
  /\ (forall j, In j s -> In j (set_add s k)).
Proof.
  unfold set_add. destruct (existsb (Qeq_bool k) s) eqn:E.
  - split; [| auto]. apply existsb_exists in E.
    destruct E as (k' & Hin & Heq). apply Qeq_bool_iff in Heq.
    exists k'. split; [exact Hin | symmetry; exact Heq].
  - split.
    + exists k. split; [apply in_or_app; right; left |]; reflexivity.
    + intros j Hj. apply in_or_app. left. exact Hj.
Qed.

Lemma strike_fold_covers (rows : list Txn) (s : list Q) :
  (forall j, In j s ->
     In j (fold_left (fun s r => match strike r with
                                 | Some k => set_add s k
                                 | None => s
                                 end) rows s))
  /\ (forall r k, In r rows -> strike r = Some k ->
       exists k',
         In k' (fold_left (fun s r => match strike r with
                                      | Some k => set_add s k
                                      | None => s
                                      end) rows s)
         /\ k' == k).
Proof.
  revert s. induction rows as [| r0 rows IH]; intros s; simpl.
  - split; [auto | intros r k []].
  - destruct (strike r0) as [k0 |] eqn:E0.
    + destruct (IH (set_add s k0)) as [I1 I2]. split.
      * intros j Hj. apply I1, set_add_covers, Hj.
      * intros r k [<- | Hr] Hk; [| exact (I2 r k Hr Hk)].
        rewrite E0 in Hk. injection Hk as <-.
        destruct (proj1 (set_add_covers s k0)) as (k' & Hin & Heq).
        exists k'. split; [apply I1, Hin | exact Heq].
    + destruct (IH s) as [I1 I2]. split; [exact I1 |].
      intros r k [<- | Hr] Hk; [congruence | exact (I2 r k Hr Hk)].
Qed.

(** The position of a strike between the smallest and the largest one *)
Lemma x_within (k lo hi : Q) :
  lo <= k -> k <= hi ->
  0 <= (k - lo) / (if Qeq_bool (hi - lo) 0 then 1 else hi - lo) * 1000
  /\ (k - lo) / (if Qeq_bool (hi - lo) 0 then 1 else hi - lo) * 1000
     <= inject_Z 1000.
Proof.
  intros H1 H2. change (inject_Z 1000) with 1000.
  destruct (Qeq_bool (hi - lo) 0) eqn:E.
  - apply Qeq_bool_iff in E.
    assert (Hz : (k - lo) / 1 * 1000 == 0).
    { assert (Hk : k - lo == 0) by lra. rewrite Hk. reflexivity. }
    rewrite Hz. split; discriminate.
  - assert (Hne : ~ hi - lo == 0).
    { intros H. apply Qeq_bool_iff in H. congruence. }
    assert (Hpos : 0 < hi - lo) by lra.
    assert (Hq0 : 0 <= (k - lo) / (hi - lo)).
    { apply Qle_shift_div_l; [exact Hpos | lra]. }
    assert (Hq1 : (k - lo) / (hi - lo) <= 1).
    { apply Qle_shift_div_r; [exact Hpos | lra]. }
    split; lra.
Qed.

Lemma ticks_xs (lo diff width : Q) (ks : list Q) (elems : list elem) :
  ~ diff == 0 ->
  ticks lo diff width ks = Ok elems ->
  label_xs elems = []
  /\ tick_xs elems = map (fun k => to_int ((k - lo) / diff * width)) ks.
Proof.
  intros Hd. revert elems. induction ks as [| k ks IH]; intros elems; simpl.
  - intros H. injection H as <-. split; reflexivity.
  - unfold x_of. rewrite (div_ok _ _ Hd). cbn [bind].
    destruct (ticks lo diff width ks) as [rest |]; [| discriminate].
    cbn [bind]. intros H. injection H as <-.
    destruct (IH rest eq_refl) as [I1 I2]. simpl.
    rewrite I1, I2. split; reflexivity.
Qed.

Lemma labels_xs (lo diff width : Q) (records : list Txn) :
  ~ diff == 0 ->
  forall y prev_time elems,
    labels lo diff width records y prev_time = Ok elems ->
    tick_xs elems = []
    /\ Forall2 (fun r x => exists k, strike r = Some k
                            /\ x = to_int ((k - lo) / diff * width))
         records (label_xs elems).
Proof.
  intros Hd. induction records as [| r records IH];
    intros y prev_time elems; simpl.
  - intros H. injection H as <-. split; [reflexivity | constructor].
  - destruct (strike r) as [k |] eqn:E; [| discriminate].
    cbn [bind]. unfold x_of. rewrite (div_ok _ _ Hd). cbn [bind].
    destruct (labels lo diff width records _ _) as [rest |] eqn:El;
      [| discriminate].
    cbn [bind]. intros H. injection H as <-.
    destruct (IH _ _ rest El) as [I1 I2]. simpl.
    split; [exact I1 |]. constructor; [| exact I2].
    exists k. split; [exact E | reflexivity].
Qed.

(** The scale and the texts of a drawing, by their horizontal positions *)
Lemma drawing_xs (txns : list Txn) (elems : list elem) :
  RenderHistorySVG txns = Ok (Drawing elems) ->
  exists k0 ks,
    strike_set (sort_by datetime_strike_le txns) = k0 :: ks
    /\ tick_xs elems
       = map (fun k =>
                to_int ((k - min_of k0 (k0 :: ks))
                        / (if Qeq_bool (max_of k0 (k0 :: ks)
                                        - min_of k0 (k0 :: ks)) 0
                           then 1
                           else max_of k0 (k0 :: ks) - min_of k0 (k0 :: ks))
                        * 1000))
           (sort_by Qle_bool (k0 :: ks))
    /\ Forall2
         (fun r x =>
            exists k,
              strike r = Some k
              /\ x = to_int ((k - min_of k0 (k0 :: ks))
                             / (if Qeq_bool (max_of k0 (k0 :: ks)
                                             - min_of k0 (k0 :: ks)) 0
                                then 1
                                else max_of k0 (k0 :: ks)
                                     - min_of k0 (k0 :: ks))
                             * 1000))
         (sort_by datetime_le (sort_by datetime_strike_le txns))
         (label_xs elems).
Proof.
  unfold RenderHistorySVG.
  destruct (strike_set (sort_by datetime_strike_le txns)) as [| k0 ks];
    [discriminate |].
  cbv zeta. intros H. exists k0, ks. split; [reflexivity |].
  pose proof (diff_strike_nonzero
                (max_of k0 (k0 :: ks) - min_of k0 (k0 :: ks))) as Hd.
  destruct (ticks _ _ _ _) as [scale |] eqn:Et; [| discriminate H].
  cbn [bind] in H.
  destruct (labels _ _ _ _ _ _) as [texts |] eqn:El; [| discriminate H].
  cbn [bind] in H. injection H as <-.
  destruct (ticks_xs _ _ _ _ _ Hd Et) as [T1 T2].
  destruct (labels_xs _ _ _ _ Hd _ _ _ El) as [L1 L2].
  change (Header :: Axis :: scale ++ Blank :: texts ++ [Footer])
    with ([Header; Axis] ++ scale ++ [Blank] ++ texts ++ [Footer]).
  unfold tick_xs, label_xs in *. rewrite !flat_map_app.
  rewrite T1, T2, L1. simpl. rewrite !app_nil_r.
  split; [reflexivity | exact L2].
Qed.

Lemma strikes_between (txns : list Txn) (k0 : Q) (ks : list Q) :
  strike_set (sort_by datetime_strike_le txns) = k0 :: ks ->
  (forall k, In k (sort_by Qle_bool (k0 :: ks)) ->
             min_of k0 (k0 :: ks) <= k /\ k <= max_of k0 (k0 :: ks))
  /\ (forall r k,
        In r (sort_by datetime_le (sort_by datetime_strike_le txns)) ->
        strike r = Some k ->
        min_of k0 (k0 :: ks) <= k /\ k <= max_of k0 (k0 :: ks)).
Proof.
  intros Es.
  assert (Hset : forall k, In k (k0 :: ks) ->
            min_of k0 (k0 :: ks) <= k /\ k <= max_of k0 (k0 :: ks)).
  { intros k Hk.
    pose proof (proj2 (min_of_le (k0 :: ks) k0)) as Hlo.
    pose proof (proj2 (max_of_ge (k0 :: ks) k0)) as Hhi.
    rewrite Forall_forall in Hlo, Hhi. split; [apply Hlo | apply Hhi]; exact Hk. }
  split.
  - intros k Hk. apply Hset.
    exact (Permutation_in _ (sort_by_perm Qle_bool (k0 :: ks)) Hk).
  - intros r k Hr Hk.
    apply (Permutation_in _ (sort_by_perm datetime_le _)) in Hr.
    destruct (proj2 (strike_fold_covers (sort_by datetime_strike_le txns) [])
                r k Hr Hk) as (k' & Hin & Heq).
    change (In k' (strike_set (sort_by datetime_strike_le txns))) in Hin.
    rewrite Es in Hin. destruct (Hset k' Hin) as [H1 H2].
    split; lra.
Qed.

(** X17.  In a drawing of [RenderHistorySVG] every tick of the scale and
    every text lies on the axis: its x is between 0 and 1000. *)
Theorem RenderHistorySVG_on_axis (txns : list Txn) (elems : list elem) :
  RenderHistorySVG txns = Ok (Drawing elems) ->
  Forall (fun x => (0 <= x <= 1000)%Z) (tick_xs elems)
  /\ Forall (fun x => (0 <= x <= 1000)%Z) (label_xs elems).
Proof.
  intros H. destruct (drawing_xs txns elems H) as (k0 & ks & Es & Ht & Hl).
  destruct (strikes_between txns k0 ks Es) as [B1 B2].
  split.
  - rewrite Ht. apply Forall_forall. intros x Hx.
    apply in_map_iff in Hx. destruct Hx as (k & <- & Hk).
    destruct (B1 k Hk) as [H1 H2].
    destruct (x_within k _ _ H1 H2) as [X1 X2].
    apply to_int_bounds; assumption.
  - revert Hl B2.
    generalize (sort_by datetime_le (sort_by datetime_strike_le txns))
               (label_xs elems).
    intros rows xs Hl B2.
    induction Hl as [| r x rows xs (k & Hk & ->) _ IH].
    + constructor.
    + constructor.
      * destruct (B2 r k (or_introl eq_refl) Hk) as [H1 H2].
        destruct (x_within k _ _ H1 H2) as [X1 X2].
        apply to_int_bounds; assumption.
      * apply IH. intros r' k' Hr'. apply B2. right. exact Hr'.
Qed.

Lemma RenderHistorySVG_on_axis_witness :
  let elems := match RenderHistorySVG two_events with
               | Ok (Drawing elems) => elems
               | _ => []
               end in
  Forall (fun x => (0 <= x <= 1000)%Z) (tick_xs elems)
  /\ Forall (fun x => (0 <= x <= 1000)%Z) (label_xs elems).
Proof.
  apply (RenderHistorySVG_on_axis two_events). reflexivity.
Defined.

Lemma fold_choice_in (choose : Q -> Q -> bool) (s : list Q) (x : Q) :
  In (fold_left (fun m v => if choose v m then v else m) s x) (x :: s).
Proof.
  revert x. induction s as [| v s IH]; intros x; simpl.
  - left. reflexivity.
  - destruct (IH (if choose v x then v else x)) as [H | H].
    + destruct (choose v x); [right; left | left]; exact H.
    + right. right. exact H.
Qed.

Lemma min_of_in (s : list Q) (x : Q) : In (min_of x s) (x :: s).
Proof. apply (fold_choice_in (fun v m => Qlt_bool v m)). Qed.

Lemma max_of_in (s : list Q) (x : Q) : In (max_of x s) (x :: s).
Proof. apply (fold_choice_in (fun v m => Qlt_bool m v)). Qed.

Lemma min_in_set (k0 : Q) (ks : list Q) :
  In (min_of k0 (k0 :: ks)) (k0 :: ks).
Proof.
  destruct (min_of_in (k0 :: ks) k0) as [H | H]; [left |]; exact H.
Qed.

Lemma max_in_set (k0 : Q) (ks : list Q) :
  In (max_of k0 (k0 :: ks)) (k0 :: ks).
Proof.
  destruct (max_of_in (k0 :: ks) k0) as [H | H]; [left |]; exact H.
Qed.

(** Every element of the set of the strikes is the strike of a row. *)
Lemma strike_fold_from (rows : list Txn) (s : list Q) (j : Q) :
  In j (fold_left (fun s r => match strike r with
                              | Some k => set_add s k
                              | None => s
                              end) rows s) ->
  In j s \/ exists r, In r rows /\ strike r = Some j.
Proof.
  revert s. induction rows as [| r0 rows IH]; intros s; simpl.
  - auto.
  - intros H. destruct (IH _ H) as [Hs | (r & Hr & Hk)].
    + destruct (strike r0) as [k0 |] eqn:E0; [| left; exact Hs].
      unfold set_add in Hs.
      destruct (existsb (Qeq_bool k0) s); [left; exact Hs |].
      apply in_app_or in Hs. destruct Hs as [Hs | [<- | []]].
      * left. exact Hs.
      * right. exists r0. split; [left; reflexivity | exact E0].
    + right. exists r. split; [right; exact Hr | exact Hk].
Qed.

Lemma strike_set_from (txns : list Txn) (j : Q) :
  In j (strike_set (sort_by datetime_strike_le txns)) ->
  exists r, In r txns /\ strike r = Some j.
Proof.
  intros H. destruct (strike_fold_from _ [] j H) as [[] | (r & Hr & Hk)].
  exists r. split; [| exact Hk].
  exact (Permutation_in _ (sort_by_perm datetime_strike_le txns) Hr).
Qed.

Lemma to_int_Z (v : Q) (n : Z) : (0 <= n)%Z -> v == inject_Z n -> to_int v = n.
Proof.
  intros Hn H. rewrite to_int_floor.
  - rewrite H. apply Qfloor_Z.
  - rewrite H. change 0 with (inject_Z 0). rewrite <- Zle_Qle. exact Hn.
Qed.

(** X18.  The scale of a drawing starts at the smallest strike and, when
    two transactions have different strikes, ends at the largest one: there
    is a tick at x = 0, and then one at x = 1000. *)
Theorem RenderHistorySVG_scale_ends (txns : list Txn) (elems : list elem) :
  RenderHistorySVG txns = Ok (Drawing elems) ->
  In 0%Z (tick_xs elems)
  /\ ((exists a b ka kb,
         In a txns /\ In b txns /\ strike a = Some ka /\ strike b = Some kb
         /\ ~ ka == kb) ->
      In 1000%Z (tick_xs elems)).
Proof.
  intros H. destruct (drawing_xs txns elems H) as (k0 & ks & Es & Ht & _).
  rewrite Ht. split.
  - apply in_map_iff. exists (min_of k0 (k0 :: ks)). split.
    + apply to_int_zero. unfold Qminus. rewrite Qplus_opp_r.
      unfold Qdiv. rewrite !Qmult_0_l. reflexivity.
    + apply (Permutation_in _ (Permutation_sym (sort_by_perm Qle_bool _))).
      apply min_in_set.
  - intros (a & b & ka & kb & Ha & Hb & Hka & Hkb & Hne).
    destruct (strikes_between txns k0 ks Es) as [_ B2].
    assert (Hin : forall r, In r txns ->
              In r (sort_by datetime_le (sort_by datetime_strike_le txns))).
    { intros r Hr.
      exact (Permutation_in _ (Permutation_sym (sorted_rows_perm txns)) Hr). }
    destruct (B2 a ka (Hin a Ha) Hka) as [A1 A2].
    destruct (B2 b kb (Hin b Hb) Hkb) as [B1 B3].
    assert (Hd : ~ max_of k0 (k0 :: ks) - min_of k0 (k0 :: ks) == 0).
    { intros E. apply Hne. lra. }
    apply in_map_iff. exists (max_of k0 (k0 :: ks)). split.
    + destruct (Qeq_bool (max_of k0 (k0 :: ks) - min_of k0 (k0 :: ks)) 0)
        eqn:E; [apply Qeq_bool_iff in E; contradiction |].
      apply to_int_Z; [lia |].
      change (inject_Z 1000) with 1000. field. exact Hd.
    + apply (Permutation_in _ (Permutation_sym (sort_by_perm Qle_bool _))).
      apply max_in_set.
Qed.

Lemma RenderHistorySVG_scale_ends_witness :
  let elems := match RenderHistorySVG two_events with
               | Ok (Drawing elems) => elems
               | _ => []
               end in
  In 1000%Z (tick_xs elems).
Proof.
  apply (proj2 (RenderHistorySVG_scale_ends two_events _ eq_refl)).
  exists (leg 5 "o1" 110 200 "c"), (leg 7 "o2" 105 (-75) "b"), 110, 105.
  split; [left; reflexivity |].
  split; [right; left; reflexivity |].
  split; [reflexivity |]. split; [reflexivity | discriminate].
Defined.

(** With one strike only, every tick and every text is at x = 0. *)
Lemma one_strike_xs (txns : list Txn) (elems : list elem) :
  RenderHistorySVG txns = Ok (Drawing elems) ->
  (forall a b ka kb, In a txns -> In b txns ->
                     strike a = Some ka -> strike b = Some kb -> ka == kb) ->
  Forall (eq 0%Z) (tick_xs elems) /\ Forall (eq 0%Z) (label_xs elems).
Proof.
  intros H Hsame.
  destruct (drawing_xs txns elems H) as (k0 & ks & Es & Ht & Hl).
  assert (Hset : forall j, In j (k0 :: ks) -> j == min_of k0 (k0 :: ks)).
  { assert (Hfrom : forall j, In j (k0 :: ks) ->
              exists r, In r txns /\ strike r = Some j).
    { intros j Hj. apply strike_set_from. rewrite Es. exact Hj. }
    intros j Hj.
    destruct (Hfrom j Hj) as (r & Hr & Hk).
    destruct (Hfrom _ (min_in_set k0 ks)) as (r' & Hr' & Hk').
    exact (Hsame r r' _ _ Hr Hr' Hk Hk'). }
  assert (Hmax : max_of k0 (k0 :: ks) == min_of k0 (k0 :: ks)).
  { apply Hset, max_in_set. }
  assert (E : Qeq_bool (max_of k0 (k0 :: ks) - min_of k0 (k0 :: ks)) 0 = true).
  { apply Qeq_bool_iff. lra. }
  rewrite E in Ht, Hl.
  assert (Hzero : forall k, k == min_of k0 (k0 :: ks) ->
            to_int ((k - min_of k0 (k0 :: ks)) / 1 * 1000) = 0%Z).
  { intros k Hk. apply to_int_zero. rewrite Hk.
    unfold Qminus. rewrite Qplus_opp_r. reflexivity. }
  split.
  - rewrite Ht. apply Forall_forall. intros x Hx.
    apply in_map_iff in Hx. destruct Hx as (k & <- & Hk).
    symmetry. apply Hzero, Hset.
    exact (Permutation_in _ (sort_by_perm Qle_bool _) Hk).
  - assert (Hrows : forall r k,
              In r (sort_by datetime_le (sort_by datetime_strike_le txns)) ->
              strike r = Some k -> k == min_of k0 (k0 :: ks)).
    { intros r k Hr Hk.
      apply (Permutation_in _ (sort_by_perm datetime_le _)) in Hr.
      destruct (proj2 (strike_fold_covers
                         (sort_by datetime_strike_le txns) []) r k Hr Hk)
        as (k' & Hin & Heq).
      change (In k' (strike_set (sort_by datetime_strike_le txns))) in Hin.
      rewrite Es in Hin. rewrite <- Heq. apply Hset, Hin. }
    revert Hl Hrows.
    generalize (sort_by datetime_le (sort_by datetime_strike_le txns))
               (label_xs elems).
    intros rows xs Hl Hrows.
    induction Hl as [| r x rows xs (k & Hk & ->) _ IH]; constructor.
    + symmetry. apply Hzero, (Hrows r k (or_introl eq_refl) Hk).
    + apply IH. intros r' k' Hr'. apply Hrows. right. exact Hr'.
Qed.

End SvgExtras.

(** ** The scale of the drawing *)

Module SvgScale.
Import Dec Table Txns Svg Reference Extra DecFacts StatsFacts TableFacts.
Import SvgFacts SvgExtras.

Lemma Qle_bool_total (a b : Q) : Qle_bool a b = false -> Qle_bool b a = true.
Proof.
  intros H. apply Qle_bool_iff.
  destruct (Qlt_le_dec b a) as [L | L]; [lra |].
  apply Qle_bool_iff in L. congruence.
Qed.

Lemma Qle_bool_trans (a b c : Q) :
  Qle_bool a b = true -> Qle_bool b c = true -> Qle_bool a c = true.
Proof. rewrite !Qle_bool_iff. lra. Qed.

(** The set of the strikes holds each value once. *)
Lemma set_add_nodup (s : list Q) (x : Q) :
  NoDupA Qeq s -> NoDupA Qeq (set_add s x).
Proof.
  intros H. unfold set_add. destruct (existsb (Qeq_bool x) s) eqn:E;
    [exact H |].
  assert (Hx : ~ InA Qeq x s).
  { intros Hin. apply InA_alt in Hin. destruct Hin as (y & Hy & Hin).
    assert (Ht : existsb (Qeq_bool x) s = true).
    { apply existsb_exists. exists y. split; [exact Hin |].
      apply Qeq_bool_iff, Hy. }
    congruence. }
  clear E. induction H as [| y s Hy Hs IH]; cbn [app].
  - constructor; [intros Hi; inversion Hi | constructor].
  - constructor.
    + intros Hi. apply InA_app in Hi. destruct Hi as [Hi | Hi].
      * contradiction.
      * apply Hx. left. inversion Hi as [? ? Heq | ? ? Hn]; subst.
        -- symmetry. exact Heq.
        -- inversion Hn.
    + apply IH. intros Hi. apply Hx. right. exact Hi.
Qed.

Lemma strike_fold_nodup (rows : list Txn) (s : list Q) :
  NoDupA Qeq s ->
  NoDupA Qeq (fold_left (fun s r => match strike r with
                                    | Some k => set_add s k
                                    | None => s
                                    end) rows s).
Proof.
  revert s. induction rows as [| r rows IH]; intros s Hs; simpl.
  - exact Hs.
  - apply IH. destruct (strike r); [apply set_add_nodup |]; exact Hs.
Qed.

Lemma sorted_strict (l : list Q) :
  StronglySorted (fun a b => Qle_bool a b = true) l -> NoDupA Qeq l ->
  StronglySorted Qlt l.
Proof.
  induction 1 as [| a l Hs IH Ha]; intros Hn; [constructor |].
  inversion Hn as [| ? ? Hnot Hrest]; subst.
  constructor; [apply IH, Hrest |].
  rewrite Forall_forall in Ha |- *. intros x Hx.
  pose proof (Ha x Hx) as Hle. apply Qle_bool_iff in Hle.
  destruct (Qeq_dec a x) as [E | E].
  - exfalso. apply Hnot. apply InA_alt. exists x. split; assumption.
  - lra.
Qed.

(** The strikes of the scale: each value once, in increasing order *)
Lemma scale_strikes (txns : list Txn) :
  let ks := sort_by Qle_bool (strike_set (sort_by datetime_strike_le txns)) in
  StronglySorted Qlt ks
  /\ (forall t k, In t txns -> strike t = Some k ->
                  exists k', In k' ks /\ k' == k)
  /\ (forall k, In k ks -> exists t, In t txns /\ strike t = Some k).
Proof.
  cbv zeta.
  pose proof (sort_by_perm Qle_bool
                (strike_set (sort_by datetime_strike_le txns))) as Hp.
  split; [| split].
  - apply sorted_strict.
    + apply sort_by_sorted; [exact Qle_bool_total | exact Qle_bool_trans].
    + eapply (PermutationA_preserves_NoDupA Q_Setoid).
      * apply Permutation_PermutationA; [exact Q_Setoid |].
        apply Permutation_sym, Hp.
      * apply strike_fold_nodup. constructor.
  - intros t k Ht Hk.
    assert (Ht' : In t (sort_by datetime_strike_le txns)).
    { exact (Permutation_in _ (Permutation_sym (sort_by_perm _ txns)) Ht). }
    destruct (proj2 (strike_fold_covers (sort_by datetime_strike_le txns) [])
                t k Ht' Hk) as (k' & Hin & Heq).
    exists k'. split; [| exact Heq].
    exact (Permutation_in _ (Permutation_sym Hp) Hin).
  - intros k Hk. apply strike_set_from.
    exact (Permutation_in _ Hp Hk).
Qed.


Ltac sorted_facts H :=
  repeat match type of H with
  | StronglySorted _ (_ :: _) =>
      let F := fresh "F" in
      pose proof (proj2 (StronglySorted_inv H)) as F;
      apply StronglySorted_inv in H; destruct H as [H _];
      repeat match type of F with
      | Forall _ (_ :: _) =>
          let L := fresh "L" in
          pose proof (Forall_inv F) as L; apply Forall_inv_tail in F
      end
  end.


(** The scale of a drawing: one tick for each strike, in increasing order,
    placed between the smallest strike and the largest one *)
Lemma RenderHistorySVG_ticks (txns : list Txn) (elems : list elem) :
  RenderHistorySVG txns = Ok (Drawing elems) ->
  exists ks lo hi,
    StronglySorted Qlt ks
    /\ (forall t k, In t txns -> strike t = Some k ->
                    exists k', In k' ks /\ k' == k)
    /\ (forall k, In k ks -> exists t, In t txns /\ strike t = Some k)
    /\ In lo ks /\ In hi ks
    /\ (forall k, In k ks -> lo <= k /\ k <= hi)
    /\ tick_xs elems
       = map (fun k =>
                to_int ((k - lo)
                        / (if Qeq_bool (hi - lo) 0 then 1 else hi - lo)
                        * 1000)) ks.
Proof.
  intros He.
  destruct (drawing_xs txns elems He) as (k0 & ks0 & Es & Ht & _).
  pose proof (scale_strikes txns) as Hk. cbv zeta in Hk. rewrite Es in Hk.
  destruct Hk as (K1 & K2 & K3).
  pose proof (sort_by_perm Qle_bool (k0 :: ks0)) as Hp.
  exists (sort_by Qle_bool (k0 :: ks0)),
         (min_of k0 (k0 :: ks0)), (max_of k0 (k0 :: ks0)).
  split; [exact K1 |]. split; [exact K2 |]. split; [exact K3 |].
  split; [exact (Permutation_in _ (Permutation_sym Hp) (min_in_set k0 ks0)) |].
  split; [exact (Permutation_in _ (Permutation_sym Hp) (max_in_set k0 ks0)) |].
  split; [exact (proj1 (strikes_between txns k0 ks0 Es)) | exact Ht].
Qed.



(** X19.  When the transactions all have a strike and all the strikes are
    equal, the range of the strikes is replaced by 1 and the drawing is
    made: it has one tick, and the tick and every text are at x = 0. *)
Theorem RenderHistorySVG_one_strike (txns : list Txn) :
  txns <> [] ->
  (forall t, In t txns -> strike t <> None) ->
  (forall a b ka kb, In a txns -> In b txns ->
                     strike a = Some ka -> strike b = Some kb -> ka == kb) ->
  exists elems,
    RenderHistorySVG txns = Ok (Drawing elems)
    /\ tick_xs elems = [0%Z]
    /\ Forall (eq 0%Z) (label_xs elems)
    /\ List.length (label_xs elems) = List.length txns.
Proof.
  intros Hne Hall Hsame.
  destruct (RenderHistorySVG_all_strikes txns Hne)
    as (elems & He); [apply Forall_forall; exact Hall |].
  exists elems. split; [exact He |].
  destruct (one_strike_xs txns elems He Hsame) as [Ht Hl].
  destruct (RenderHistorySVG_ticks txns elems He)
    as (ks & lo & hi & K1 & _ & K3 & Klo & _ & _ & Kt).
  destruct (drawing_xs txns elems He) as (k0 & ks0 & _ & _ & Hrows).
  split; [| split; [exact Hl |]].
  - destruct ks as [| x1 [| x2 rest]]; [destruct Klo | |].
    + rewrite Kt in Ht |- *. cbn [map] in Ht |- *.
      rewrite <- (Forall_inv Ht). reflexivity.
    + exfalso. sorted_facts K1.
      destruct (K3 x1 (or_introl eq_refl)) as (t1 & T1 & S1).
      destruct (K3 x2 (or_intror (or_introl eq_refl))) as (t2 & T2 & S2).
      pose proof (Hsame t1 t2 x1 x2 T1 T2 S1 S2). lra.
  - rewrite <- (Forall2_length Hrows).
    apply Permutation_length, sorted_rows_perm.
Qed.

Lemma RenderHistorySVG_one_strike_witness :
  exists elems,
    RenderHistorySVG
      [leg 5 "o1" 100 200 "c"; leg 7 "o2" (1000 # 10) (-75) "b"]
    = Ok (Drawing elems)
    /\ tick_xs elems = [0%Z]
    /\ Forall (eq 0%Z) (label_xs elems)
    /\ List.length (label_xs elems) = 2%nat.
Proof.
  apply (RenderHistorySVG_one_strike
           [leg 5 "o1" 100 200 "c"; leg 7 "o2" (1000 # 10) (-75) "b"]).
  - discriminate.
  - intros t [<- | [<- | []]]; discriminate.
  - intros a b ka kb [<- | [<- | []]] [<- | [<- | []]] Ha Hb;
      injection Ha as <-; injection Hb as <-; reflexivity.
Defined.

End SvgScale.
